(** * MakerJs.paths: the path constructors of maker.js (src/core/paths.ts)

    A shallow embedding of the constructors [Arc], [Circle], [Line], [Chord],
    [Parallel] and [BezierSeed] of namespace [MakerJs.paths].

    Conventions of the embedding.
    - A JavaScript [number] is a real number ([R]): the arithmetic of the
      constructors is read over the reals, rounding of IEEE doubles and the
      values NaN and Infinity are outside the model.
    - An [IPoint] (a two-element [number[]]) is a pair [(x, y)].
    - A property that a constructor may leave unassigned is an [option]:
      [None] is JavaScript's [undefined].
    - Reading a property of [undefined] raises a [TypeError]; a constructor
      that can raise returns a [result].
    - The functions of the namespaces point, angle, measure and path are
      defined in other files of the library; they are written here from
      their contracts, over the reals.
    - The overloaded constructors take [...args: any[]] and branch on
      [args.length]; the embedding takes one inductive value per declared
      overload signature and branches on it in the order of the [switch]. *)

From Stdlib Require Import Reals Lra Lia List Bool.
Import ListNotations.
Open Scope R_scope.

(** ** Results of code that can raise *)

Inductive result (A : Type) : Type :=
| Ok (a : A)
| TypeError.
Arguments Ok {A} a.
Arguments TypeError {A}.

Definition bind {A B : Type} (r : result A) (k : A -> result B) : result B :=
  match r with
  | Ok a => k a
  | TypeError => TypeError
  end.

Notation "x <- r ;; k" := (bind r (fun x => k))
  (at level 61, r at next level, right associativity).

(** [xs[i]] in JavaScript: [undefined] past the end of the array. *)
Definition js_index {A : Type} (xs : list A) (i : nat) : option A := nth_error xs i.

(** A value about to be dereferenced: [undefined] raises. *)
Definition deref {A : Type} (v : option A) : result A :=
  match v with
  | Some a => Ok a
  | None => TypeError
  end.

(** ** Data model *)

Definition IPoint : Type := (R * R)%type.

(** Modelled from the spec: [pathType], the tags of the path kinds Line,
    Circle, Arc and BezierSeed (its declaration is in a file that is
    missing); these are the four members paths.ts assigns. *)
Module pathType.
Inductive t : Set := Line | Circle | Arc | BezierSeed.
End pathType.

Record IPathLine : Type := mkLine {
  line_type : pathType.t;
  line_origin : IPoint;
  line_end : IPoint
}.

Record IPathCircle : Type := mkCircle {
  circle_type : pathType.t;
  circle_origin : IPoint;
  circle_radius : R
}.

Record IPathArc : Type := mkArc {
  arc_type : pathType.t;
  arc_origin : IPoint;
  arc_radius : R;
  arc_startAngle : R;
  arc_endAngle : R
}.

(** Modelled from the spec: the result of [path.intersection], of which
    the Arc constructor reads [intersectionPoints]. *)
Record IPathIntersection : Type := mkIntersection {
  intersectionPoints : list IPoint
}.

(** ** The geometry utilities the constructors call

    point, angle, measure and path are namespaces of the library that live in
    other files; each function is written here from its contract. *)

Module angle.

(** Modelled from the spec: [angle.toRadians], unit conversion of degrees
    to radians (the file src/core/angle.ts is missing). *)
Definition toRadians (angleInDegrees : R) : R := angleInDegrees * PI / 180.

(** Modelled from the spec: the inverse unit conversion. *)
Definition toDegrees (angleInRadians : R) : R := angleInRadians * 180 / PI.

(** Modelled from the spec: the angle of a point as seen from an origin, in
    radians in [0, 2 PI); the direction of the zero vector is 0. *)
Definition ofPointInRadians (origin pointToFindAngle : IPoint) : R :=
  let x := fst pointToFindAngle - fst origin in
  let y := snd pointToFindAngle - snd origin in
  if Rlt_dec 0 x then
    if Rle_dec 0 y then atan (y / x) else atan (y / x) + 2 * PI
  else if Rlt_dec x 0 then atan (y / x) + PI
  else if Rlt_dec 0 y then PI / 2
  else if Rlt_dec y 0 then 3 * (PI / 2)
  else 0.

(** Modelled from the spec: [angle.ofPointInDegrees(origin, point)], the
    angle of [point] as seen from [origin], degrees in [0, 360). *)
Definition ofPointInDegrees (origin pointToFindAngle : IPoint) : R :=
  toDegrees (ofPointInRadians origin pointToFindAngle).

(** Modelled from the spec: [angle.ofLineInDegrees(line)], the angle of the
    line's direction vector. *)
Definition ofLineInDegrees (line : IPathLine) : R :=
  ofPointInDegrees (line_origin line) (line_end line).

(** Modelled from the spec: the end angle of an arc after normalization,
    never below the start angle (one revolution is added when it is). *)
Definition ofArcEnd (arc : IPathArc) : R :=
  if Rlt_dec (arc_endAngle arc) (arc_startAngle arc)
  then arc_endAngle arc + 360
  else arc_endAngle arc.

End angle.

Module point.

(** Modelled from the spec: [point.add(p, vector)], the translated point
    (the file src/core/point.ts is missing). *)
Definition add (a b : IPoint) : IPoint := (fst a + fst b, snd a + snd b).

(** Modelled from the spec: the vector from [b] to [a], the inverse of
    [point.add]. *)
Definition subtract (a b : IPoint) : IPoint := (fst a - fst b, snd a - snd b).

(** Modelled from the spec: [point.average(p1, p2)], the midpoint. *)
Definition average (a b : IPoint) : IPoint :=
  ((fst a + fst b) / 2, (snd a + snd b) / 2).

(** Modelled from the spec: [point.clone(p)], a value copy. *)
Definition clone (p : IPoint) : IPoint := (fst p, snd p).

(** Modelled from the spec: [point.fromPolar(angleRadians, distance)], the
    point at the given polar offset from the origin of the plane. *)
Definition fromPolar (angleInRadians radius : R) : IPoint :=
  (radius * cos angleInRadians, radius * sin angleInRadians).

(** Modelled from the spec: [point.middle(line)], the midpoint of a line's
    endpoints. *)
Definition middle (line : IPathLine) : IPoint :=
  average (line_origin line) (line_end line).

(** Modelled from the spec: [point.fromArc(arc)], the start point and the
    end point on the arc, in that order. *)
Definition fromArc (arc : IPathArc) : list IPoint :=
  [ add (arc_origin arc) (fromPolar (angle.toRadians (arc_startAngle arc)) (arc_radius arc));
    add (arc_origin arc) (fromPolar (angle.toRadians (arc_endAngle arc)) (arc_radius arc)) ].

(** Modelled from the spec: [point.fromSlopeIntersection(line1, line2)], the
    intersection point of the two lines' infinite extensions, or none when
    they are parallel.  The contract speaks of lines, each through two
    distinct endpoints; for a line whose endpoints coincide the contract
    says nothing, the value below ([None]) is a convention, and the
    properties of the three-point Circle and Arc are stated for distinct
    points only. *)
Definition fromSlopeIntersection (lineA lineB : IPathLine) : option IPoint :=
  let ax := fst (line_end lineA) - fst (line_origin lineA) in
  let ay := snd (line_end lineA) - snd (line_origin lineA) in
  let bx := fst (line_end lineB) - fst (line_origin lineB) in
  let by_ := snd (line_end lineB) - snd (line_origin lineB) in
  let det := ax * by_ - ay * bx in
  if Req_dec_T det 0 then None
  else
    let wx := fst (line_origin lineB) - fst (line_origin lineA) in
    let wy := snd (line_origin lineB) - snd (line_origin lineA) in
    let t := (wx * by_ - wy * bx) / det in
    Some (fst (line_origin lineA) + t * ax, snd (line_origin lineA) + t * ay).

End point.

Module measure.

(** Modelled from the spec: [measure.pointDistance(p1, p2)], the Euclidean
    distance (the file src/core/measure.ts is missing). *)
Definition pointDistance (a b : IPoint) : R :=
  let dx := fst b - fst a in
  let dy := snd b - snd a in
  sqrt (dx * dx + dy * dy).

(** Modelled from the spec: the same call on an origin that may be missing.
    The three-point Circle "fails (no result)" when the perpendiculars do not
    intersect: the coordinates of the missing origin are read for the
    distance, which raises. *)
Definition pointDistance_js (a : option IPoint) (b : IPoint) : result R :=
  a' <- deref a ;; Ok (pointDistance a' b).

(** Modelled from the spec: a value within two limits, the limits themselves
    counted when [includeEndpoints] is set. *)
Definition isBetween (valueInQuestion limitA limitB : R) (includeEndpoints : bool) : bool :=
  if includeEndpoints then
    (if Rle_dec limitA valueInQuestion then true else false)
    && (if Rle_dec valueInQuestion limitB then true else false)
  else
    (if Rlt_dec limitA valueInQuestion then true else false)
    && (if Rlt_dec valueInQuestion limitB then true else false).

(** Modelled from the spec: [measure.isBetweenArcAngles(angleDeg, arc,
    includeEndpoints)], true if [angleDeg] lies within the arc's angular
    span, traversed from the arc's own start to its (normalized) end; the
    angle is also tried one revolution forward and one backward. *)
Definition isBetweenArcAngles (angleInQuestion : R) (arc : IPathArc) (includeEndpoints : bool) : bool :=
  let startAngle := arc_startAngle arc in
  let endAngle := angle.ofArcEnd arc in
  isBetween angleInQuestion startAngle endAngle includeEndpoints
  || isBetween (angleInQuestion + 360) startAngle endAngle includeEndpoints
  || isBetween (angleInQuestion - 360) startAngle endAngle includeEndpoints.

End measure.

Module path.

(** Modelled from the spec: a point rotated about a pivot by an angle in
    degrees, counter-clockwise (src/core/path.ts is missing). *)
Definition rotatePoint (p : IPoint) (angleInDegrees : R) (rotationOrigin : IPoint) : IPoint :=
  let c := cos (angle.toRadians angleInDegrees) in
  let s := sin (angle.toRadians angleInDegrees) in
  let x := fst p - fst rotationOrigin in
  let y := snd p - snd rotationOrigin in
  (fst rotationOrigin + (x * c - y * s), snd rotationOrigin + (x * s + y * c)).

(** Modelled from the spec: [path.rotate(path, angleDeg, aroundPoint)] on a
    line, the line with both endpoints rotated about the pivot. *)
Definition rotate (line : IPathLine) (angleInDegrees : R) (rotationOrigin : IPoint) : IPathLine :=
  mkLine (line_type line)
         (rotatePoint (line_origin line) angleInDegrees rotationOrigin)
         (rotatePoint (line_end line) angleInDegrees rotationOrigin).

(** Modelled from the spec: [path.move(path, newOrigin)] on a line,
    relocating the line's origin and preserving its shape. *)
Definition move (line : IPathLine) (newOrigin : IPoint) : IPathLine :=
  mkLine (line_type line)
         newOrigin
         (point.add newOrigin (point.subtract (line_end line) (line_origin line))).

(** Modelled from the spec: [path.intersection(pathA, pathB)] on two
    circles, the set of their intersection points, or none.  With [v] the
    vector between the centres and [d2] its squared length, the points lie
    at [k] along [v] from the first centre and [s] times the perpendicular
    of [v] to either side; tangent circles meet in the single point.  The
    order of two points is not fixed by the contract. *)
Definition intersection (circle1 circle2 : IPathCircle) : option IPathIntersection :=
  let r1 := circle_radius circle1 in
  let r2 := circle_radius circle2 in
  let vx := fst (circle_origin circle2) - fst (circle_origin circle1) in
  let vy := snd (circle_origin circle2) - snd (circle_origin circle1) in
  let d2 := vx * vx + vy * vy in
  if Rle_dec r1 0 then None
  else if Rle_dec r2 0 then None
  else if Req_dec_T d2 0 then None
  else
    let k := (r1 * r1 - r2 * r2 + d2) / (2 * d2) in
    let h2 := r1 * r1 - k * k * d2 in
    let px := fst (circle_origin circle1) + k * vx in
    let py := snd (circle_origin circle1) + k * vy in
    if Rlt_dec h2 0 then None
    else if Rlt_dec 0 h2 then
      let s := sqrt (h2 / d2) in
      Some (mkIntersection [ (px - s * vy, py + s * vx); (px + s * vy, py - s * vx) ])
    else Some (mkIntersection [ (px, py) ]).

End path.

(** ** namespace MakerJs.paths (src/core/paths.ts) *)

Module paths.

(** interface IArcSpan *)
Record IArcSpan : Type := mkSpan {
  span_origin : option IPoint;
  span_startAngle : R;
  span_endAngle : R;
  span_size : R
}.

(** An instance of class Arc: the SVG-style constructor may leave origin,
    startAngle and endAngle unassigned. *)
Record ArcObject : Type := mkArcObject {
  origin : option IPoint;
  radius : option R;
  startAngle : option R;
  endAngle : option R;
  type : pathType.t
}.

(** The declared overloads of [new Circle(...)]. *)
Inductive CircleArgs : Type :=
| CircleOfRadius (origin : IPoint) (radius : R)
| CircleOf2Points (pointA pointB : IPoint)
| CircleOf3Points (pointA pointB pointC : IPoint).

(** The declared overloads of [new Arc(...)].  [ArcOf2Points] covers
    [args.length = 2] and [args.length = 3] with a last argument that is not
    a point (the clockwise flag), which falls through to [case 2]. *)
Inductive ArcArgs : Type :=
| ArcOfAngles (origin : IPoint) (radius startAngle endAngle : R)
| ArcOfSvg (pointA pointB : IPoint) (radius : R) (largeArc clockwise : bool)
| ArcOf2Points (pointA pointB : IPoint) (clockwise : option bool)
| ArcOf3Points (pointA pointB pointC : IPoint).

(** class Line *)
Definition Line (origin end_ : IPoint) : IPathLine :=
  mkLine pathType.Line origin end_.

(** The loop [for (var i = 2; i--;)] of the three-point Circle: the
    perpendicular of [lines[i]] through its midpoint is pushed for i = 1,
    then for i = 0. *)
Fixpoint perpendicularsLoop (lines : list IPathLine) (i : nat)
         (perpendiculars : list IPathLine) : result (list IPathLine) :=
  match i with
  | O => Ok perpendiculars
  | S i' =>
      line <- deref (js_index lines i') ;;
      let midpoint := point.middle line in
      perpendicularsLoop lines i' (perpendiculars ++ [path.rotate line 90 midpoint])
  end.

(** class Circle *)
Definition Circle (args : CircleArgs) : result IPathCircle :=
  match args with
  | CircleOfRadius origin radius =>
      Ok (mkCircle pathType.Circle origin radius)
  | CircleOf2Points pointA pointB =>
      let origin := point.average pointA pointB in
      Ok (mkCircle pathType.Circle origin (measure.pointDistance origin pointA))
  | CircleOf3Points pointA pointB pointC =>
      let lines := [ Line pointA pointB; Line pointB pointC ] in
      perpendiculars <- perpendicularsLoop lines 2 [] ;;
      p0 <- deref (js_index perpendiculars 0) ;;
      p1 <- deref (js_index perpendiculars 1) ;;
      let origin := point.fromSlopeIntersection p0 p1 in
      radius <- measure.pointDistance_js origin pointA ;;
      o <- deref origin ;;
      Ok (mkCircle pathType.Circle o radius)
  end.

Section UndefinedOrigin.

(** The SVG loop hands [origins.intersectionPoints[i]] to
    [angle.ofPointInDegrees] without checking it.  What that function does
    with an origin that is [undefined] is not part of its contract: it may
    raise, or go on and return some number.  The constructor is read for
    any such behaviour, the parameter [ofUndefinedOrigin]: [arcSpan],
    [spansLoop] and [Arc] take it as their first argument. *)
Variable ofUndefinedOrigin : IPoint -> result R.

Definition ofPointInDegrees_js (origin : option IPoint) (pointToFindAngle : IPoint) : result R :=
  match origin with
  | Some o => Ok (angle.ofPointInDegrees o pointToFindAngle)
  | None => ofUndefinedOrigin pointToFindAngle
  end.

(** The body of the SVG loop for one candidate origin. *)
Definition arcSpan (origin : option IPoint) (pointA pointB : IPoint)
           (clockwise : bool) : result IArcSpan :=
  startAngle <- ofPointInDegrees_js origin (if clockwise then pointB else pointA) ;;
  endAngle <- ofPointInDegrees_js origin (if clockwise then pointA else pointB) ;;
  let endAngle := if Rlt_dec endAngle startAngle then endAngle + 360 else endAngle in
  Ok (mkSpan origin startAngle endAngle (endAngle - startAngle)).

(** insert sorted by size ascending *)
Definition insertSpan (spans : list IArcSpan) (span : IArcSpan) : list IArcSpan :=
  match spans with
  | [] => spans ++ [span]
  | first :: _ =>
      if Rgt_dec (span_size span) (span_size first)
      then spans ++ [span]
      else span :: spans
  end.

(** The loop [for (var i = 2; i--;)] over [origins.intersectionPoints]:
    i = 1, then i = 0. *)
Fixpoint spansLoop (points : list IPoint) (pointA pointB : IPoint) (clockwise : bool)
         (i : nat) (spans : list IArcSpan) : result (list IArcSpan) :=
  match i with
  | O => Ok spans
  | S i' =>
      span <- arcSpan (js_index points i') pointA pointB clockwise ;;
      spansLoop points pointA pointB clockwise i' (insertSpan spans span)
  end.

Definition truthy (flag : option bool) : bool :=
  match flag with
  | Some b => b
  | None => false
  end.

(** class Arc *)
Definition Arc (args : ArcArgs) : result ArcObject :=
  match args with
  | ArcOfSvg pointA pointB radius largeArc clockwise =>
      circleA <- Circle (CircleOfRadius pointA radius) ;;
      circleB <- Circle (CircleOfRadius pointB radius) ;;
      match path.intersection circleA circleB with
      | Some origins =>
          spans <- spansLoop (intersectionPoints origins) pointA pointB clockwise 2 [] ;;
          let index := if largeArc then 1%nat else 0%nat in
          span <- deref (js_index spans index) ;;
          Ok (mkArcObject (span_origin span) (Some radius)
                          (Some (span_startAngle span)) (Some (span_endAngle span))
                          pathType.Arc)
      | None =>
          Ok (mkArcObject None (Some radius) None None pathType.Arc)
      end
  | ArcOfAngles origin radius startAngle endAngle =>
      Ok (mkArcObject (Some origin) (Some radius) (Some startAngle) (Some endAngle)
                      pathType.Arc)
  | ArcOf3Points pointA pointB pointC =>
      circle <- Circle (CircleOf3Points pointA pointB pointC) ;;
      let angle0 := angle.ofPointInDegrees (circle_origin circle) pointA in
      let angle1 := angle.ofPointInDegrees (circle_origin circle) pointB in
      let angle2 := angle.ofPointInDegrees (circle_origin circle) pointC in
      let this := mkArc (circle_type circle) (circle_origin circle) (circle_radius circle)
                        angle0 angle2 in
      if negb (measure.isBetweenArcAngles angle1 this false)
      then Ok (mkArcObject (Some (circle_origin circle)) (Some (circle_radius circle))
                           (Some angle2) (Some angle0) pathType.Arc)
      else Ok (mkArcObject (Some (circle_origin circle)) (Some (circle_radius circle))
                           (Some angle0) (Some angle2) pathType.Arc)
  | ArcOf2Points pointA pointB clockwise =>
      let clockwise := truthy clockwise in
      circle <- Circle (CircleOf2Points pointA pointB) ;;
      Ok (mkArcObject (Some (circle_origin circle)) (Some (circle_radius circle))
                      (Some (angle.ofPointInDegrees (circle_origin circle)
                               (if clockwise then pointB else pointA)))
                      (Some (angle.ofPointInDegrees (circle_origin circle)
                               (if clockwise then pointA else pointB)))
                      pathType.Arc)
  end.

End UndefinedOrigin.

(** An instance of class Chord: origin and end are read from the array
    [point.fromArc] returns. *)
Record ChordObject : Type := mkChordObject {
  chord_type : pathType.t;
  chord_origin : option IPoint;
  chord_end : option IPoint
}.

(** class Chord *)
Definition Chord (arc : IPathArc) : ChordObject :=
  let arcPoints := point.fromArc arc in
  mkChordObject pathType.Line (js_index arcPoints 0) (js_index arcPoints 1).

Record NewOrigin : Type := mkNewOrigin {
  newOrigin_origin : IPoint;
  nearness : R
}.

(** The local function [getNewOrigin] of the Parallel constructor. *)
Definition getNewOrigin (toLine : IPathLine) (distance : R) (nearPoint : IPoint)
           (angleOfLine offsetAngle : R) : NewOrigin :=
  let origin := point.add (line_origin toLine)
                  (point.fromPolar (angle.toRadians (angleOfLine + offsetAngle)) distance) in
  mkNewOrigin origin (measure.pointDistance origin nearPoint).

(** The origin the Parallel constructor moves the cloned line to. *)
Definition selectNewOrigin (newOrigins0 newOrigins1 : NewOrigin) : IPoint :=
  if Rlt_dec (nearness newOrigins0) (nearness newOrigins1)
  then newOrigin_origin newOrigins0
  else newOrigin_origin newOrigins1.

(** class Parallel *)
Definition Parallel (toLine : IPathLine) (distance : R) (nearPoint : IPoint) : IPathLine :=
  let this := mkLine pathType.Line (point.clone (line_origin toLine))
                     (point.clone (line_end toLine)) in
  let angleOfLine := angle.ofLineInDegrees this in
  let newOrigins0 := getNewOrigin toLine distance nearPoint angleOfLine (-90) in
  let newOrigins1 := getNewOrigin toLine distance nearPoint angleOfLine 90 in
  let newOrigin := selectNewOrigin newOrigins0 newOrigins1 in
  path.move this newOrigin.

(** The value of [controls]: an array of points, or, when the single
    control point handed to the three-argument form is itself an array
    ([Array.isArray] holds of a point written [[x, y]]), that point. *)
Inductive ControlsValue : Type :=
| PointArray (points : list IPoint)
| NumberArray (point : IPoint).

(** An instance of class BezierSeed. *)
Record BezierSeedObject : Type := mkBezierSeedObject {
  seed_type : pathType.t;
  seed_origin : option IPoint;
  seed_end : option IPoint;
  seed_controls : option ControlsValue
}.

(** The declared overloads of [new BezierSeed(...)].  [controlIsArray] is
    [Array.isArray(args[1])] for a single control point. *)
Inductive BezierSeedArgs : Type :=
| SeedOfPoints (points : list IPoint)
| SeedOfControl (origin control : IPoint) (controlIsArray : bool) (end_ : IPoint)
| SeedOfControls (origin : IPoint) (controls : list IPoint) (end_ : IPoint)
| SeedOfCubic (origin control1 control2 end_ : IPoint).

(** class BezierSeed *)
Definition BezierSeed (args : BezierSeedArgs) : BezierSeedObject :=
  match args with
  | SeedOfPoints points =>
      match points with
      | [p0; p1; p2] =>
          mkBezierSeedObject pathType.BezierSeed (Some p0) (Some p2)
                             (Some (PointArray [p1]))
      | [p0; p1; p2; p3] =>
          mkBezierSeedObject pathType.BezierSeed (Some p0) (Some p3)
                             (Some (PointArray [p1; p2]))
      | _ =>
          mkBezierSeedObject pathType.BezierSeed (js_index points 0) (js_index points 1)
                             None
      end
  | SeedOfControl _ control controlIsArray end_ =>
      mkBezierSeedObject pathType.BezierSeed None (Some end_)
                         (Some (if controlIsArray then NumberArray control
                                else PointArray [control]))
  | SeedOfControls _ controls end_ =>
      mkBezierSeedObject pathType.BezierSeed None (Some end_) (Some (PointArray controls))
  | SeedOfCubic _ control1 control2 end_ =>
      mkBezierSeedObject pathType.BezierSeed None (Some end_)
                         (Some (PointArray [control1; control2]))
  end.

End paths.

(** ** Notions used to state the properties *)

(** The opposite direction of an angle in degrees, within [0, 360). *)
Definition opposite (a : R) : R := if Rlt_dec a 180 then a + 180 else a - 180.

(** Twice the signed area of the triangle [a], [b], [c]: zero exactly when
    the three points are collinear. *)
Definition cross3 (a b c : IPoint) : R :=
  (fst b - fst a) * (snd c - snd b) - (snd b - snd a) * (fst c - fst b).

Definition collinear (a b c : IPoint) : Prop := cross3 a b c = 0.

(** An Arc instance read as the [IPathArc] it implements, when the
    constructor assigned all of its properties: the object handed on to a
    function that takes an arc, such as the Chord constructor. *)
Definition asPathArc (arc : paths.ArcObject) : option IPathArc :=
  match paths.origin arc, paths.radius arc, paths.startAngle arc, paths.endAngle arc with
  | Some origin, Some radius, Some startAngle, Some endAngle =>
      Some (mkArc (paths.type arc) origin radius startAngle endAngle)
  | _, _, _, _ => None
  end.

(** The scalar product of the vectors from [o] to [p] and from [o'] to [q]. *)
Definition dotProduct (o p o' q : IPoint) : R :=
  (fst p - fst o) * (fst q - fst o') + (snd p - snd o) * (snd q - snd o').

(** Rewrites the square root in the goal to [q], whose square its argument
    is. *)
Ltac sqrt_is q :=
  match goal with
  | |- context [sqrt ?e] =>
      replace e with (q * q) by lra; rewrite (sqrt_square q) by lra
  end.

(** * Properties

    In the statements about the Arc constructor, [u : IPoint -> result R] is
    the behaviour of [angle.ofPointInDegrees] on an undefined origin, the
    parameter [ofUndefinedOrigin] of [paths.arcSpan], [paths.spansLoop] and
    [paths.Arc]: the statements hold for every [u]. *)

(** ** Angles and distances *)

Section Trigonometry.

Lemma two_PI_pos : 0 < 2 * PI.
Proof. pose proof PI_RGT_0. lra. Qed.

Lemma toRadians_toDegrees (a : R) : angle.toRadians (angle.toDegrees a) = a.
Proof.
  unfold angle.toRadians, angle.toDegrees. field. apply PI_neq0.
Qed.

Lemma sum_sqr_nonneg (x y : R) : 0 <= x * x + y * y.
Proof. nra. Qed.

Lemma sum_sqr_zero (x y : R) : x * x + y * y = 0 -> x = 0 /\ y = 0.
Proof. intros H. split; nra. Qed.

Lemma pointDistance_nonneg (a b : IPoint) : 0 <= measure.pointDistance a b.
Proof. unfold measure.pointDistance. apply sqrt_pos. Qed.

Lemma pointDistance_sqr (a b : IPoint) :
  measure.pointDistance a b * measure.pointDistance a b
  = (fst b - fst a) * (fst b - fst a) + (snd b - snd a) * (snd b - snd a).
Proof.
  unfold measure.pointDistance. cbv zeta. apply sqrt_def, sum_sqr_nonneg.
Qed.

Lemma pointDistance_sym (a b : IPoint) :
  measure.pointDistance a b = measure.pointDistance b a.
Proof. unfold measure.pointDistance. cbv zeta. f_equal. ring. Qed.

(** Two distances are equal as soon as their squares are. *)
Lemma pointDistance_eq_of_sqr (a b c d : IPoint) :
  (fst b - fst a) * (fst b - fst a) + (snd b - snd a) * (snd b - snd a)
  = (fst d - fst c) * (fst d - fst c) + (snd d - snd c) * (snd d - snd c) ->
  measure.pointDistance a b = measure.pointDistance c d.
Proof. intros H. unfold measure.pointDistance. cbv zeta. now rewrite H. Qed.

Lemma sqrt_hyp_pos (x y : R) : x <> 0 -> 0 < sqrt (x * x + y * y).
Proof. intros Hx. apply sqrt_lt_R0. nra. Qed.

Lemma sqrt_tan_form (x y : R) :
  0 < x -> sqrt (1 + (y / x)²) = sqrt (x * x + y * y) / x.
Proof.
  intros Hx.
  assert (Hd : 0 < sqrt (x * x + y * y)) by (apply sqrt_hyp_pos; lra).
  assert (Hdd : sqrt (x * x + y * y) * sqrt (x * x + y * y) = x * x + y * y)
    by (apply sqrt_def; nra).
  apply sqrt_lem_1.
  - unfold Rsqr. pose proof (Rle_0_sqr (y / x)) as H. unfold Rsqr in H. lra.
  - apply Rlt_le. apply Rdiv_lt_0_compat; assumption.
  - unfold Rsqr.
    replace (sqrt (x * x + y * y) / x * (sqrt (x * x + y * y) / x))
      with ((sqrt (x * x + y * y) * sqrt (x * x + y * y)) / (x * x))
      by (field; lra).
    rewrite Hdd. field. lra.
Qed.

Lemma atan_polar_pos (x y : R) :
  0 < x ->
  sqrt (x * x + y * y) * cos (atan (y / x)) = x
  /\ sqrt (x * x + y * y) * sin (atan (y / x)) = y.
Proof.
  intros Hx.
  assert (Hd : 0 < sqrt (x * x + y * y)) by (apply sqrt_hyp_pos; lra).
  rewrite cos_atan, sin_atan, sqrt_tan_form by assumption.
  split; field; lra.
Qed.

Lemma atan_polar_neg (x y : R) :
  x < 0 ->
  sqrt (x * x + y * y) * cos (atan (y / x) + PI) = x
  /\ sqrt (x * x + y * y) * sin (atan (y / x) + PI) = y.
Proof.
  intros Hx.
  destruct (atan_polar_pos (- x) (- y)) as [Hc Hs]; [lra|].
  replace (- x * - x + - y * - y) with (x * x + y * y) in Hc, Hs by ring.
  replace (- y / - x) with (y / x) in Hc, Hs by (field; lra).
  rewrite neg_cos, neg_sin. split; lra.
Qed.

(** The angle of a point from an origin is a polar coordinate of the point
    about that origin. *)
Lemma ofPointInRadians_polar (o p : IPoint) :
  fst p - fst o
    = measure.pointDistance o p * cos (angle.ofPointInRadians o p)
  /\ snd p - snd o
    = measure.pointDistance o p * sin (angle.ofPointInRadians o p).
Proof.
  unfold measure.pointDistance, angle.ofPointInRadians. cbv zeta.
  set (x := fst p - fst o). set (y := snd p - snd o).
  destruct (Rlt_dec 0 x) as [Hx|Hx].
  - destruct (atan_polar_pos x y Hx) as [Hc Hs].
    destruct (Rle_dec 0 y).
    + split; lra.
    + replace (atan (y / x) + 2 * PI) with (atan (y / x) + 2 * INR 1 * PI)
        by (simpl; ring).
      rewrite cos_period, sin_period. split; lra.
  - destruct (Rlt_dec x 0) as [Hx'|Hx'].
    + destruct (atan_polar_neg x y Hx') as [Hc Hs]. split; lra.
    + assert (Hx0 : x = 0) by lra. rewrite Hx0.
      replace (0 * 0 + y * y) with (y * y) by ring.
      destruct (Rlt_dec 0 y) as [Hy|Hy].
      * rewrite cos_PI2, sin_PI2, sqrt_square by lra. split; lra.
      * destruct (Rlt_dec y 0) as [Hy'|Hy'].
        -- replace (3 * (PI / 2)) with (PI / 2 + PI) by field.
           rewrite neg_cos, neg_sin, cos_PI2, sin_PI2.
           replace (y * y) with (- y * - y) by ring.
           rewrite sqrt_square by lra. split; lra.
        -- assert (Hy0 : y = 0) by lra. rewrite Hy0.
           replace (0 * 0) with 0 by ring. rewrite sqrt_0. split; lra.
Qed.

Lemma ofPointInRadians_range (o p : IPoint) :
  0 <= angle.ofPointInRadians o p < 2 * PI.
Proof.
  pose proof PI_RGT_0 as HPI.
  unfold angle.ofPointInRadians. cbv zeta.
  set (x := fst p - fst o). set (y := snd p - snd o).
  destruct (Rlt_dec 0 x) as [Hx|Hx].
  - pose proof (atan_bound (y / x)) as Hb.
    destruct (Rle_dec 0 y) as [Hy|Hy].
    + assert (0 <= atan (y / x)).
      { destruct Hy as [Hy|Hy].
        - apply Rlt_le. rewrite <- atan_0. apply atan_increasing.
          apply Rdiv_lt_0_compat; assumption.
        - rewrite <- Hy. unfold Rdiv. rewrite Rmult_0_l, atan_0. lra. }
      lra.
    + assert (atan (y / x) < 0).
      { rewrite <- atan_0. apply atan_increasing.
        assert (0 < - y / x) by (apply Rdiv_lt_0_compat; lra).
        unfold Rdiv in *. lra. }
      lra.
  - destruct (Rlt_dec x 0) as [Hx'|Hx'].
    + pose proof (atan_bound (y / x)). lra.
    + destruct (Rlt_dec 0 y); [lra|]. destruct (Rlt_dec y 0); lra.
Qed.

End Trigonometry.

Section AngleOfPoint.

(** An angle in [0, 2 PI) is determined by its cosine and sine. *)
Lemma angle_unique (a b : R) :
  0 <= a < 2 * PI -> 0 <= b < 2 * PI ->
  cos a = cos b -> sin a = sin b -> a = b.
Proof.
  intros Ha Hb Hc Hs.
  pose proof PI_RGT_0 as HPI.
  assert (Hsin : sin (a - b) = 0) by (rewrite sin_minus, Hc, Hs; ring).
  assert (Hcos : cos (a - b) = 1).
  { rewrite cos_minus, Hc, Hs.
    pose proof (sin2_cos2 b) as H. unfold Rsqr in H. lra. }
  destruct (sin_eq_0_0 _ Hsin) as [k Hk].
  assert (Hlo : (-2 < k)%Z).
  { apply lt_IZR. apply Rmult_lt_reg_r with PI; [lra|]. rewrite <- Hk. lra. }
  assert (Hhi : (k < 2)%Z).
  { apply lt_IZR. apply Rmult_lt_reg_r with PI; [lra|]. rewrite <- Hk. lra. }
  assert (Hcases : k = (-1)%Z \/ k = 0%Z \/ k = 1%Z) by lia.
  destruct Hcases as [-> | [-> | ->]].
  - replace (a - b) with (- PI) in Hcos by lra.
    rewrite cos_neg, cos_PI in Hcos. lra.
  - lra.
  - replace (a - b) with PI in Hcos by lra.
    rewrite cos_PI in Hcos. lra.
Qed.

Lemma ofPointInDegrees_range (o p : IPoint) :
  0 <= angle.ofPointInDegrees o p < 360.
Proof.
  pose proof PI_RGT_0 as HPI.
  pose proof (ofPointInRadians_range o p) as [Hlo Hhi].
  unfold angle.ofPointInDegrees, angle.toDegrees.
  split.
  - apply Rmult_le_reg_r with PI; [lra|].
    replace (angle.ofPointInRadians o p * 180 / PI * PI)
      with (angle.ofPointInRadians o p * 180) by (field; lra).
    lra.
  - apply Rmult_lt_reg_r with PI; [lra|].
    replace (angle.ofPointInRadians o p * 180 / PI * PI)
      with (angle.ofPointInRadians o p * 180) by (field; lra).
    lra.
Qed.

Lemma ofPointInDegrees_polar (o p : IPoint) :
  fst p - fst o
    = measure.pointDistance o p * cos (angle.toRadians (angle.ofPointInDegrees o p))
  /\ snd p - snd o
    = measure.pointDistance o p * sin (angle.toRadians (angle.ofPointInDegrees o p)).
Proof.
  unfold angle.ofPointInDegrees. rewrite toRadians_toDegrees.
  apply ofPointInRadians_polar.
Qed.

Lemma toRadians_range (a : R) : 0 <= a < 360 -> 0 <= angle.toRadians a < 2 * PI.
Proof.
  intros [Hlo Hhi]. pose proof PI_RGT_0 as HPI.
  unfold angle.toRadians. split.
  - apply Rmult_le_reg_r with 180; [lra|].
    replace (a * PI / 180 * 180) with (a * PI) by field. nra.
  - apply Rmult_lt_reg_r with 180; [lra|].
    replace (a * PI / 180 * 180) with (a * PI) by field. nra.
Qed.

Lemma toRadians_inj (a b : R) : angle.toRadians a = angle.toRadians b -> a = b.
Proof.
  unfold angle.toRadians. intros H. pose proof PI_RGT_0 as HPI.
  assert (a * PI = b * PI) by lra.
  apply Rmult_eq_reg_r with PI; lra.
Qed.

(** The angle of [p] from [o] is the one angle in [0, 360) whose direction
    points from [o] to [p]. *)
Lemma ofPointInDegrees_unique (o p : IPoint) (a : R) :
  0 < measure.pointDistance o p ->
  0 <= a < 360 ->
  fst p - fst o = measure.pointDistance o p * cos (angle.toRadians a) ->
  snd p - snd o = measure.pointDistance o p * sin (angle.toRadians a) ->
  angle.ofPointInDegrees o p = a.
Proof.
  intros Hd Ha Hx Hy.
  destruct (ofPointInDegrees_polar o p) as [Hx' Hy'].
  apply toRadians_inj, angle_unique.
  - apply toRadians_range, ofPointInDegrees_range.
  - apply toRadians_range, Ha.
  - apply Rmult_eq_reg_l with (measure.pointDistance o p); lra.
  - apply Rmult_eq_reg_l with (measure.pointDistance o p); lra.
Qed.

(** Two points at the same distance and the same angle from an origin are
    the same point. *)
Lemma ofPointInDegrees_inj (o p q : IPoint) :
  measure.pointDistance o p = measure.pointDistance o q ->
  angle.ofPointInDegrees o p = angle.ofPointInDegrees o q ->
  p = q.
Proof.
  intros Hd Ha.
  destruct (ofPointInDegrees_polar o p) as [Hx Hy].
  destruct (ofPointInDegrees_polar o q) as [Hx' Hy'].
  rewrite Hd, Ha in Hx, Hy.
  destruct p as [px py], q as [qx qy]; simpl in *.
  f_equal; lra.
Qed.

Lemma point_eq_dec (p q : IPoint) : {p = q} + {p <> q}.
Proof.
  destruct p as [px py], q as [qx qy].
  destruct (Req_dec_T px qx) as [->|Hx]; [|right; congruence].
  destruct (Req_dec_T py qy) as [->|Hy]; [left; reflexivity|right; congruence].
Qed.

Lemma pointDistance_pos (o p : IPoint) : o <> p -> 0 < measure.pointDistance o p.
Proof.
  intros Hne.
  destruct (pointDistance_nonneg o p) as [H|H]; [assumption|].
  exfalso. apply Hne.
  pose proof (pointDistance_sqr o p) as Hs. rewrite <- H in Hs.
  destruct o as [ox oy], p as [px py]; simpl in *.
  destruct (sum_sqr_zero (px - ox) (py - oy)) as [Hx Hy]; [lra|].
  f_equal; lra.
Qed.

Lemma pointDistance_refl (o : IPoint) : measure.pointDistance o o = 0.
Proof.
  unfold measure.pointDistance. cbv zeta.
  replace ((fst o - fst o) * (fst o - fst o) + (snd o - snd o) * (snd o - snd o))
    with 0 by ring.
  apply sqrt_0.
Qed.

Lemma pointDistance_zero (o p : IPoint) : measure.pointDistance o p = 0 -> o = p.
Proof.
  intros Hz. destruct (point_eq_dec o p) as [He|Hne]; [exact He|].
  pose proof (pointDistance_pos o p Hne). lra.
Qed.

Lemma toRadians_plus_180 (a : R) : angle.toRadians (a + 180) = angle.toRadians a + PI.
Proof. unfold angle.toRadians. field. Qed.

Lemma cos_sin_opposite (a : R) :
  cos (angle.toRadians (opposite a)) = - cos (angle.toRadians a)
  /\ sin (angle.toRadians (opposite a)) = - sin (angle.toRadians a).
Proof.
  unfold opposite. destruct (Rlt_dec a 180).
  - rewrite toRadians_plus_180, neg_cos, neg_sin. split; reflexivity.
  - pose proof (toRadians_plus_180 (a - 180)) as H.
    replace (a - 180 + 180) with a in H by ring.
    rewrite H, neg_cos, neg_sin. split; ring.
Qed.

(** Opposite vectors have opposite angles. *)
Lemma ofPointInDegrees_opposite (o p o' p' : IPoint) :
  o <> p ->
  fst p' - fst o' = - (fst p - fst o) ->
  snd p' - snd o' = - (snd p - snd o) ->
  angle.ofPointInDegrees o' p' = opposite (angle.ofPointInDegrees o p).
Proof.
  intros Hne Hx Hy.
  assert (Hd : measure.pointDistance o' p' = measure.pointDistance o p).
  { apply pointDistance_eq_of_sqr. rewrite Hx, Hy. ring. }
  pose proof (pointDistance_pos o p Hne) as Hpos.
  destruct (ofPointInDegrees_polar o p) as [Hpx Hpy].
  destruct (cos_sin_opposite (angle.ofPointInDegrees o p)) as [Hc Hs].
  pose proof (ofPointInDegrees_range o p) as Hr.
  apply ofPointInDegrees_unique.
  - lra.
  - unfold opposite. destruct (Rlt_dec _ 180); lra.
  - rewrite Hc, Hd, Hx. lra.
  - rewrite Hs, Hd, Hy. lra.
Qed.

End AngleOfPoint.

(** ** Two circles of one radius *)

Section Rhombus.

Lemma perpendicular_bisector_algebra (ux uy w0x w0y w1x w1y : R) :
  ux * ux + uy * uy <> 0 ->
  w0x * ux + w0y * uy = 0 ->
  w1x * ux + w1y * uy = 0 ->
  w0x * w0x + w0y * w0y = w1x * w1x + w1y * w1y ->
  (w0x - w1x) * (w0x - w1x) + (w0y - w1y) * (w0y - w1y) <> 0 ->
  w0x + w1x = 0 /\ w0y + w1y = 0.
Proof.
  intros Hu H0 H1 Hn Hd.
  set (sx := w0x + w1x). set (sy := w0y + w1y).
  set (dx := w0x - w1x). set (dy := w0y - w1y).
  (* s and d are both orthogonal to u, and to each other *)
  assert (Hsu : sx * ux + sy * uy = 0) by (unfold sx, sy; lra).
  assert (Hdu : dx * ux + dy * uy = 0) by (unfold dx, dy; lra).
  assert (Hsd : sx * dx + sy * dy = 0) by (unfold sx, sy, dx, dy; lra).
  set (sj := sy * ux - sx * uy). set (dj := dy * ux - dx * uy).
  assert (Hprod : sj * dj = 0).
  { replace (sj * dj)
      with ((sx * dx + sy * dy) * (ux * ux + uy * uy)
            - (sx * ux + sy * uy) * (dx * ux + dy * uy))
      by (unfold sj, dj; ring).
    rewrite Hsd, Hsu. ring. }
  assert (Hdj : dj <> 0).
  { intros Hz. apply Hd. fold dx dy.
    assert (Hq : (dx * dx + dy * dy) * (ux * ux + uy * uy) = 0).
    { replace ((dx * dx + dy * dy) * (ux * ux + uy * uy))
        with (dj * dj + (dx * ux + dy * uy) * (dx * ux + dy * uy))
        by (unfold dj; ring).
      rewrite Hz, Hdu. ring. }
    apply Rmult_integral in Hq. tauto. }
  assert (Hsj : sj = 0).
  { apply Rmult_integral in Hprod. tauto. }
  assert (Hs : sx * sx + sy * sy = 0).
  { assert (Hq : (sx * sx + sy * sy) * (ux * ux + uy * uy) = 0).
    { replace ((sx * sx + sy * sy) * (ux * ux + uy * uy))
        with (sj * sj + (sx * ux + sy * uy) * (sx * ux + sy * uy))
        by (unfold sj; ring).
      rewrite Hsj, Hsu. ring. }
    apply Rmult_integral in Hq. tauto. }
  apply sum_sqr_zero, Hs.
Qed.

Lemma point_neq_sqr (p q : IPoint) :
  p <> q ->
  (fst p - fst q) * (fst p - fst q) + (snd p - snd q) * (snd p - snd q) <> 0.
Proof.
  intros Hne Hz. apply Hne.
  destruct (sum_sqr_zero _ _ Hz) as [Hx Hy].
  destruct p, q; simpl in *. f_equal; lra.
Qed.

(** Two distinct points, each equidistant from [a] and [b] and both at one
    distance from [a], are mirror images in the line through [a] and [b]:
    with [a] and [b] they are the corners of a rhombus. *)
Lemma equidistant_centres_rhombus (a b o0 o1 : IPoint) :
  a <> b -> o0 <> o1 ->
  measure.pointDistance o0 a = measure.pointDistance o0 b ->
  measure.pointDistance o1 a = measure.pointDistance o1 b ->
  measure.pointDistance o0 a = measure.pointDistance o1 a ->
  fst o0 + fst o1 = fst a + fst b /\ snd o0 + snd o1 = snd a + snd b.
Proof.
  intros Hab Ho H0 H1 H01.
  pose proof (pointDistance_sqr o0 a) as S0a.
  pose proof (pointDistance_sqr o0 b) as S0b.
  pose proof (pointDistance_sqr o1 a) as S1a.
  pose proof (pointDistance_sqr o1 b) as S1b.
  rewrite <- H0 in S0b. rewrite <- H1 in S1b. rewrite H01 in S0a, S0b.
  pose proof (point_neq_sqr b a (fun e => Hab (eq_sym e))) as Hu.
  pose proof (point_neq_sqr o0 o1 Ho) as Hd.
  destruct a as [ax ay], b as [bx by_], o0 as [x0 y0], o1 as [x1 y1]; simpl in *.
  destruct (perpendicular_bisector_algebra
              (bx - ax) (by_ - ay)
              (x0 - (ax + bx) / 2) (y0 - (ay + by_) / 2)
              (x1 - (ax + bx) / 2) (y1 - (ay + by_) / 2)) as [Hx Hy].
  - exact Hu.
  - clear - S0a S0b. lra.
  - clear - S1a S1b. lra.
  - clear - S0a S0b S1a S1b. lra.
  - replace (x0 - (ax + bx) / 2 - (x1 - (ax + bx) / 2)) with (x0 - x1) by field.
    replace (y0 - (ay + by_) / 2 - (y1 - (ay + by_) / 2)) with (y0 - y1) by field.
    exact Hd.
  - split; lra.
Qed.

End Rhombus.

Section CircleIntersection.

Lemma intersection_sound (c1 c2 : IPathCircle) (i : IPathIntersection) (p : IPoint) :
  path.intersection c1 c2 = Some i ->
  In p (intersectionPoints i) ->
  measure.pointDistance (circle_origin c1) p = circle_radius c1
  /\ measure.pointDistance (circle_origin c2) p = circle_radius c2.
Proof.
  destruct c1 as [t1 [x1 y1] r1], c2 as [t2 [x2 y2] r2].
  unfold path.intersection, measure.pointDistance. cbn [circle_origin circle_radius fst snd].
  set (vx := x2 - x1). set (vy := y2 - y1).
  set (d2 := vx * vx + vy * vy).
  set (k := (r1 * r1 - r2 * r2 + d2) / (2 * d2)).
  set (h2 := r1 * r1 - k * k * d2).
  destruct (Rle_dec r1 0) as [|Hr1]; [discriminate|].
  destruct (Rle_dec r2 0) as [|Hr2]; [discriminate|].
  destruct (Req_dec_T d2 0) as [|Hd2]; [discriminate|].
  assert (Hk : 2 * k * d2 = r1 * r1 - r2 * r2 + d2) by (unfold k; field; exact Hd2).
  assert (Hx2 : x2 = x1 + vx) by (unfold vx; ring).
  assert (Hy2 : y2 = y1 + vy) by (unfold vy; ring).
  destruct (Rlt_dec h2 0) as [|Hneg]; [discriminate|].
  destruct (Rlt_dec 0 h2) as [Hpos|Hzero].
  - set (s := sqrt (h2 / d2)).
    assert (Hd2pos : 0 < d2).
    { pose proof (sum_sqr_nonneg vx vy). fold d2 in H. lra. }
    assert (Hs : s * s * d2 = h2).
    { unfold s. rewrite sqrt_def.
      - field. exact Hd2.
      - apply Rlt_le, Rdiv_lt_0_compat; assumption. }
    intros Hi Hin. injection Hi as <-. cbn [intersectionPoints] in Hin.
    destruct Hin as [<- | [<- | []]]; cbn [fst snd]; rewrite Hx2, Hy2;
      split; apply sqrt_lem_1;
      try apply sum_sqr_nonneg; try lra;
      clear - Hs Hk; unfold h2, d2 in *; lra.
  - intros Hi Hin. injection Hi as <-. cbn [intersectionPoints] in Hin.
    assert (Hh : h2 = 0) by lra.
    destruct Hin as [<- | []]; cbn [fst snd]; rewrite Hx2, Hy2;
      split; apply sqrt_lem_1;
      try apply sum_sqr_nonneg; try lra;
      clear - Hh Hk; unfold h2, d2 in *; lra.
Qed.

Lemma intersection_guards (c1 c2 : IPathCircle) (i : IPathIntersection) :
  path.intersection c1 c2 = Some i ->
  0 < circle_radius c1 /\ 0 < circle_radius c2 /\ circle_origin c1 <> circle_origin c2.
Proof.
  unfold path.intersection. cbv zeta.
  destruct (Rle_dec (circle_radius c1) 0); [discriminate|].
  destruct (Rle_dec (circle_radius c2) 0); [discriminate|].
  destruct (Req_dec_T _ 0) as [|Hd2]; [discriminate|].
  intros _. repeat split; try lra.
  intros He. apply Hd2. rewrite He. ring.
Qed.

Lemma intersection_two_distinct (c1 c2 : IPathCircle) (p q : IPoint) :
  path.intersection c1 c2 = Some (mkIntersection [p; q]) -> p <> q.
Proof.
  destruct c1 as [t1 [x1 y1] r1], c2 as [t2 [x2 y2] r2].
  unfold path.intersection. cbn [circle_origin circle_radius fst snd].
  set (vx := x2 - x1). set (vy := y2 - y1).
  set (d2 := vx * vx + vy * vy).
  set (k := (r1 * r1 - r2 * r2 + d2) / (2 * d2)).
  set (h2 := r1 * r1 - k * k * d2).
  destruct (Rle_dec r1 0); [discriminate|].
  destruct (Rle_dec r2 0); [discriminate|].
  destruct (Req_dec_T d2 0) as [|Hd2]; [discriminate|].
  destruct (Rlt_dec h2 0); [discriminate|].
  destruct (Rlt_dec 0 h2) as [Hpos|]; [|discriminate].
  set (s := sqrt (h2 / d2)).
  assert (Hd2pos : 0 < d2).
  { pose proof (sum_sqr_nonneg vx vy). fold d2 in H. lra. }
  assert (Hs : 0 < s).
  { apply sqrt_lt_R0, Rdiv_lt_0_compat; assumption. }
  intros Hi He. injection Hi as <- <-. injection He as Hx Hy.
  assert (Hvy : s * vy = 0) by lra.
  assert (Hvx : s * vx = 0) by lra.
  apply Rmult_integral in Hvy, Hvx.
  destruct Hvy as [|Hvy]; [lra|]. destruct Hvx as [|Hvx]; [lra|].
  apply Hd2. unfold d2. rewrite Hvx, Hvy. ring.
Qed.

End CircleIntersection.

(** ** The SVG-style Arc *)

Section SvgArc.

Variable u : IPoint -> result R.
Variables (pointA pointB : IPoint) (clockwise : bool).

Let startPoint : IPoint := if clockwise then pointB else pointA.
Let endPoint : IPoint := if clockwise then pointA else pointB.

Lemma arcSpan_defined (o : IPoint) :
  paths.arcSpan u (Some o) pointA pointB clockwise
  = Ok (let startAngle := angle.ofPointInDegrees o startPoint in
        let endAngle := angle.ofPointInDegrees o endPoint in
        let endAngle := if Rlt_dec endAngle startAngle then endAngle + 360 else endAngle in
        paths.mkSpan (Some o) startAngle endAngle (endAngle - startAngle)).
Proof. reflexivity. Qed.

(** With an undefined origin the span, if there is one, has no origin. *)
Lemma arcSpan_undefined (span : paths.IArcSpan) :
  paths.arcSpan u None pointA pointB clockwise = Ok span ->
  paths.span_origin span = None.
Proof.
  unfold paths.arcSpan, paths.ofPointInDegrees_js.
  destruct (u _); [|discriminate]. destruct (u _); [|discriminate].
  cbn [bind]. intros H. injection H as <-. reflexivity.
Qed.

Lemma arcSpan_fields (o : IPoint) (span : paths.IArcSpan) :
  paths.arcSpan u (Some o) pointA pointB clockwise = Ok span ->
  paths.span_origin span = Some o
  /\ paths.span_startAngle span = angle.ofPointInDegrees o startPoint
  /\ paths.span_endAngle span
     = (if Rlt_dec (angle.ofPointInDegrees o endPoint) (angle.ofPointInDegrees o startPoint)
        then angle.ofPointInDegrees o endPoint + 360
        else angle.ofPointInDegrees o endPoint)
  /\ paths.span_size span = paths.span_endAngle span - paths.span_startAngle span
  /\ 0 <= paths.span_size span.
Proof.
  rewrite arcSpan_defined. intros H. injection H as <-. cbn.
  pose proof (ofPointInDegrees_range o startPoint).
  pose proof (ofPointInDegrees_range o endPoint).
  repeat split; try reflexivity.
  destruct (Rlt_dec _ _); lra.
Qed.

(** The loop over two candidates: the span of [o1] is pushed first, the
    span of [o0] goes behind it when it is the larger one and in front of
    it otherwise. *)
Lemma spansLoop_two (o0 o1 : IPoint) (span0 span1 : paths.IArcSpan) :
  paths.arcSpan u (Some o0) pointA pointB clockwise = Ok span0 ->
  paths.arcSpan u (Some o1) pointA pointB clockwise = Ok span1 ->
  paths.spansLoop u [o0; o1] pointA pointB clockwise 2 []
  = Ok (if Rgt_dec (paths.span_size span0) (paths.span_size span1)
        then [span1; span0] else [span0; span1]).
Proof.
  intros H0 H1. cbn [paths.spansLoop js_index nth_error].
  rewrite H1. cbn [bind paths.insertSpan app]. rewrite H0. cbn [bind paths.insertSpan].
  destruct (Rgt_dec _ _); reflexivity.
Qed.

(** A single candidate: the loop still reads index 1 first, where the
    origin is undefined. *)
Lemma spansLoop_one (o : IPoint) :
  paths.spansLoop u [o] pointA pointB clockwise 2 []
  = (span1 <- paths.arcSpan u None pointA pointB clockwise ;;
     span0 <- paths.arcSpan u (Some o) pointA pointB clockwise ;;
     Ok (paths.insertSpan [span1] span0)).
Proof. reflexivity. Qed.

Lemma wrapped_spans_complementary (a b : R) :
  0 <= a < 360 -> 0 <= b < 360 -> a <> b ->
  ((if Rlt_dec b a then b + 360 else b) - a)
  + ((if Rlt_dec (opposite a) (opposite b) then opposite a + 360 else opposite a)
     - opposite b)
  = 360.
Proof.
  intros Ha Hb Hne. unfold opposite.
  destruct (Rlt_dec a 180), (Rlt_dec b 180);
    destruct (Rlt_dec b a); destruct (Rlt_dec _ _); lra.
Qed.

(** The spans of two mirror-image centres add up to one revolution. *)
Lemma mirror_spans_complementary (o0 o1 : IPoint) (span0 span1 : paths.IArcSpan) :
  pointA <> pointB -> o0 <> o1 ->
  measure.pointDistance o0 pointA = measure.pointDistance o0 pointB ->
  measure.pointDistance o1 pointA = measure.pointDistance o1 pointB ->
  measure.pointDistance o0 pointA = measure.pointDistance o1 pointA ->
  paths.arcSpan u (Some o0) pointA pointB clockwise = Ok span0 ->
  paths.arcSpan u (Some o1) pointA pointB clockwise = Ok span1 ->
  paths.span_size span0 + paths.span_size span1 = 360.
Proof.
  intros Hab Ho H0 H1 H01 S0 S1.
  destruct (equidistant_centres_rhombus _ _ _ _ Hab Ho H0 H1 H01) as [Hx Hy].
  assert (Hse : startPoint <> endPoint).
  { unfold startPoint, endPoint. destruct clockwise; congruence. }
  assert (Hsum : fst o0 + fst o1 = fst startPoint + fst endPoint
                 /\ snd o0 + snd o1 = snd startPoint + snd endPoint).
  { unfold startPoint, endPoint. destruct clockwise; split; lra. }
  assert (Hd0 : measure.pointDistance o0 startPoint = measure.pointDistance o0 endPoint).
  { unfold startPoint, endPoint. destruct clockwise; congruence. }
  assert (Hne0 : o0 <> startPoint /\ o0 <> endPoint).
  { split; intros He; apply Hse.
    - assert (Hz : measure.pointDistance o0 endPoint = 0)
        by (rewrite <- Hd0, <- He; apply pointDistance_refl).
      apply pointDistance_zero in Hz. congruence.
    - assert (Hz : measure.pointDistance o0 startPoint = 0)
        by (rewrite Hd0, <- He; apply pointDistance_refl).
      apply pointDistance_zero in Hz. congruence. }
  destruct Hne0 as [Hns Hne].
  destruct Hsum as [Hsx Hsy].
  assert (Ha1 : angle.ofPointInDegrees o1 startPoint
                = opposite (angle.ofPointInDegrees o0 endPoint)).
  { apply ofPointInDegrees_opposite; [exact Hne | lra | lra]. }
  assert (Hb1 : angle.ofPointInDegrees o1 endPoint
                = opposite (angle.ofPointInDegrees o0 startPoint)).
  { apply ofPointInDegrees_opposite; [exact Hns | lra | lra]. }
  assert (Hneq : angle.ofPointInDegrees o0 startPoint <> angle.ofPointInDegrees o0 endPoint).
  { intros He. apply Hse. apply (ofPointInDegrees_inj o0); assumption. }
  rewrite arcSpan_defined in S0, S1.
  injection S0 as <-. injection S1 as <-. cbn [paths.span_size].
  fold startPoint endPoint. rewrite Ha1, Hb1.
  apply wrapped_spans_complementary; try apply ofPointInDegrees_range.
  exact Hneq.
Qed.

End SvgArc.

Section SvgArcExamples.

(** Circles of radius 5 about (0,0) and (6,0) meet in (3,4) and (3,-4). *)
Lemma intersection_radius_5 :
  path.intersection (mkCircle pathType.Circle (0, 0) 5) (mkCircle pathType.Circle (6, 0) 5)
  = Some (mkIntersection [ (3, 4); (3, -4) ]).
Proof.
  unfold path.intersection. cbn [circle_origin circle_radius fst snd].
  destruct (Rle_dec 5 0); [lra|].
  destruct (Req_dec_T _ 0); [lra|].
  destruct (Rlt_dec _ 0); [lra|].
  destruct (Rlt_dec 0 _); [|lra].
  sqrt_is (2 / 3).
  do 2 f_equal. repeat f_equal; lra.
Qed.

End SvgArcExamples.

(** ** C1: the two candidate spans of the SVG-style Arc *)



(** ** The three-point Circle *)

Section CircleOf3Points.

Lemma toRadians_90 : angle.toRadians 90 = PI / 2.
Proof. unfold angle.toRadians. field. Qed.

(** A quarter turn about [m]. *)
Lemma rotatePoint_90 (p m : IPoint) :
  path.rotatePoint p 90 m
  = (fst m - (snd p - snd m), snd m + (fst p - fst m)).
Proof.
  unfold path.rotatePoint. cbv zeta.
  rewrite toRadians_90, cos_PI2, sin_PI2. f_equal; ring.
Qed.

Variables pointA pointB pointC : IPoint.

(** The perpendiculars, in the order the loop pushes them: the one of the
    chord from B to C first. *)
Lemma perpendicularsLoop_chords :
  paths.perpendicularsLoop [ paths.Line pointA pointB; paths.Line pointB pointC ] 2 []
  = Ok [ path.rotate (paths.Line pointB pointC) 90 (point.middle (paths.Line pointB pointC));
         path.rotate (paths.Line pointA pointB) 90 (point.middle (paths.Line pointA pointB)) ].
Proof. reflexivity. Qed.

Lemma fromSlopeIntersection_perpendiculars_collinear :
  collinear pointA pointB pointC ->
  point.fromSlopeIntersection
    (path.rotate (paths.Line pointB pointC) 90 (point.middle (paths.Line pointB pointC)))
    (path.rotate (paths.Line pointA pointB) 90 (point.middle (paths.Line pointA pointB)))
  = None.
Proof.
  unfold collinear, cross3. intros Hc.
  unfold point.fromSlopeIntersection, path.rotate. cbn [line_origin line_end].
  rewrite !rotatePoint_90. cbn [fst snd]. cbv zeta.
  destruct (Req_dec_T _ 0) as [|Hne]; [reflexivity|].
  exfalso. apply Hne.
  destruct pointA, pointB, pointC; cbn [fst snd paths.Line point.middle point.average
                                          line_origin line_end] in *.
  lra.
Qed.

Lemma fromSlopeIntersection_perpendiculars :
  ~ collinear pointA pointB pointC ->
  exists o : IPoint,
    point.fromSlopeIntersection
      (path.rotate (paths.Line pointB pointC) 90 (point.middle (paths.Line pointB pointC)))
      (path.rotate (paths.Line pointA pointB) 90 (point.middle (paths.Line pointA pointB)))
    = Some o
    /\ measure.pointDistance o pointA = measure.pointDistance o pointB
    /\ measure.pointDistance o pointB = measure.pointDistance o pointC.
Proof.
  unfold collinear, cross3. intros Hc.
  unfold point.fromSlopeIntersection, path.rotate. cbn [line_origin line_end].
  rewrite !rotatePoint_90. cbn [fst snd]. cbv zeta.
  destruct pointA as [ax ay], pointB as [bx by_], pointC as [cx cy].
  cbn [fst snd paths.Line point.middle point.average line_origin line_end] in *.
  destruct (Req_dec_T _ 0) as [He|Hne].
  - exfalso. apply Hc. lra.
  - eexists. split; [reflexivity|].
    split; apply pointDistance_eq_of_sqr; cbn [fst snd]; field;
      intros Hz; apply Hc; lra.
Qed.

End CircleOf3Points.

(** ** Betweenness on an arc *)

Section Betweenness.

Lemma isBetween_true (v lo hi : R) (flag : bool) :
  measure.isBetween v lo hi flag = true
  <-> (if flag then lo <= v <= hi else lo < v < hi).
Proof.
  unfold measure.isBetween.
  destruct flag.
  - destruct (Rle_dec lo v), (Rle_dec v hi); cbn; split;
      intros H; try discriminate; try reflexivity; lra.
  - destruct (Rlt_dec lo v), (Rlt_dec v hi); cbn; split;
      intros H; try discriminate; try reflexivity; lra.
Qed.

Lemma isBetweenArcAngles_true (v : R) (arc : IPathArc) (flag : bool) :
  measure.isBetweenArcAngles v arc flag = true
  <-> ((if flag then arc_startAngle arc <= v <= angle.ofArcEnd arc
        else arc_startAngle arc < v < angle.ofArcEnd arc)
       \/ (if flag then arc_startAngle arc <= v + 360 <= angle.ofArcEnd arc
           else arc_startAngle arc < v + 360 < angle.ofArcEnd arc)
       \/ (if flag then arc_startAngle arc <= v - 360 <= angle.ofArcEnd arc
           else arc_startAngle arc < v - 360 < angle.ofArcEnd arc)).
Proof.
  unfold measure.isBetweenArcAngles. cbv zeta.
  rewrite !orb_true_iff, !isBetween_true. tauto.
Qed.

Variables (t : pathType.t) (o : IPoint) (r : R).
Variables a b c : R.
Hypothesis Ha : 0 <= a < 360.
Hypothesis Hb : 0 <= b < 360.
Hypothesis Hc : 0 <= c < 360.
Hypothesis Hab : a <> b.
Hypothesis Hbc : b <> c.

(** An angle on the arc and off its two ends is on it under either reading
    of the endpoint flag. *)
Lemma isBetweenArcAngles_flag (t' : pathType.t) (flag flag' : bool) :
  measure.isBetweenArcAngles b (mkArc t o r a c) flag = true ->
  measure.isBetweenArcAngles b (mkArc t' o r a c) flag' = true.
Proof.
  rewrite !isBetweenArcAngles_true. unfold angle.ofArcEnd.
  cbn [arc_startAngle arc_endAngle].
  destruct (Rlt_dec c a); destruct flag, flag'; lra.
Qed.

Lemma isBetweenArcAngles_flag_eq (flag flag' : bool) :
  measure.isBetweenArcAngles b (mkArc t o r a c) flag
  = measure.isBetweenArcAngles b (mkArc t o r a c) flag'.
Proof.
  destruct (measure.isBetweenArcAngles b (mkArc t o r a c) flag) eqn:H1;
    destruct (measure.isBetweenArcAngles b (mkArc t o r a c) flag') eqn:H2;
    try reflexivity.
  - rewrite (isBetweenArcAngles_flag t flag flag' H1) in H2. discriminate.
  - rewrite (isBetweenArcAngles_flag t flag' flag H2) in H1. discriminate.
Qed.

(** An angle off the arc from [a] to [c] lies on the arc from [c] to [a]. *)
Lemma isBetweenArcAngles_complement (t' : pathType.t) (flag flag' : bool) :
  a <> c ->
  measure.isBetweenArcAngles b (mkArc t o r a c) flag = false ->
  measure.isBetweenArcAngles b (mkArc t' o r c a) flag' = true.
Proof.
  intros Hac Hfalse.
  assert (Hnot : ~ measure.isBetweenArcAngles b (mkArc t o r a c) flag = true)
    by (rewrite Hfalse; discriminate).
  rewrite isBetweenArcAngles_true in *. unfold angle.ofArcEnd in *.
  cbn [arc_startAngle arc_endAngle] in *.
  destruct (Rlt_dec c a), (Rlt_dec a c); destruct flag, flag'; lra.
Qed.

(** What the predicate says of an angle on the arc, in plain inequalities. *)
Lemma isBetweenArcAngles_span (flag : bool) :
  measure.isBetweenArcAngles b (mkArc t o r a c) flag = true ->
  a <= b <= (if Rlt_dec c a then c + 360 else c)
  \/ a <= b + 360 <= (if Rlt_dec c a then c + 360 else c).
Proof.
  rewrite isBetweenArcAngles_true. unfold angle.ofArcEnd.
  cbn [arc_startAngle arc_endAngle].
  destruct (Rlt_dec c a); destruct flag; lra.
Qed.

End Betweenness.

(** ** C5: the circumcentre *)

Lemma not_collinear_distinct (a b c : IPoint) :
  ~ collinear a b c -> a <> b /\ b <> c /\ a <> c.
Proof.
  unfold collinear, cross3. intros H.
  repeat split; intros He; apply H; rewrite He; ring.
Qed.

Lemma Circle_3points_defined (pointA pointB pointC o : IPoint) :
  point.fromSlopeIntersection
    (path.rotate (paths.Line pointB pointC) 90 (point.middle (paths.Line pointB pointC)))
    (path.rotate (paths.Line pointA pointB) 90 (point.middle (paths.Line pointA pointB)))
  = Some o ->
  paths.Circle (paths.CircleOf3Points pointA pointB pointC)
  = Ok (mkCircle pathType.Circle o (measure.pointDistance o pointA)).
Proof.
  intros Ho. unfold paths.Circle.
  rewrite perpendicularsLoop_chords. cbn [bind js_index nth_error deref].
  rewrite Ho. reflexivity.
Qed.

Lemma Circle_3points_undefined (pointA pointB pointC : IPoint) :
  point.fromSlopeIntersection
    (path.rotate (paths.Line pointB pointC) 90 (point.middle (paths.Line pointB pointC)))
    (path.rotate (paths.Line pointA pointB) 90 (point.middle (paths.Line pointA pointB)))
  = None ->
  paths.Circle (paths.CircleOf3Points pointA pointB pointC) = TypeError.
Proof.
  intros Ho. unfold paths.Circle.
  rewrite perpendicularsLoop_chords. cbn [bind js_index nth_error deref].
  rewrite Ho. reflexivity.
Qed.

(** C5. Circle from three points that are not collinear: the constructor
    returns a circle whose origin is the intersection of the perpendiculars
    through the midpoints of the chords from B to C and from A to B; the
    origin is at one distance from A, B and C, and the radius is that
    distance. *)
Theorem Circle_3points_equidistant (pointA pointB pointC : IPoint) :
  ~ collinear pointA pointB pointC ->
  exists circle : IPathCircle,
    paths.Circle (paths.CircleOf3Points pointA pointB pointC) = Ok circle
    /\ circle_type circle = pathType.Circle
    /\ point.fromSlopeIntersection
         (path.rotate (paths.Line pointB pointC) 90
                      (point.middle (paths.Line pointB pointC)))
         (path.rotate (paths.Line pointA pointB) 90
                      (point.middle (paths.Line pointA pointB)))
       = Some (circle_origin circle)
    /\ measure.pointDistance (circle_origin circle) pointA
       = measure.pointDistance (circle_origin circle) pointB
    /\ measure.pointDistance (circle_origin circle) pointB
       = measure.pointDistance (circle_origin circle) pointC
    /\ circle_radius circle = measure.pointDistance (circle_origin circle) pointA.
Proof.
  intros Hnc.
  destruct (fromSlopeIntersection_perpendiculars pointA pointB pointC Hnc)
    as (o & Ho & Hab & Hbc).
  exists (mkCircle pathType.Circle o (measure.pointDistance o pointA)).
  cbn [circle_type circle_origin circle_radius].
  repeat split; try assumption.
  apply Circle_3points_defined, Ho.
Qed.

Lemma not_collinear_example : ~ collinear (0, 0) (2, 0) (0, 2).
Proof. unfold collinear, cross3. cbn [fst snd]. lra. Qed.

Lemma Circle_3points_equidistant_witness :
  exists circle : IPathCircle,
    paths.Circle (paths.CircleOf3Points (0, 0) (2, 0) (0, 2)) = Ok circle
    /\ circle_type circle = pathType.Circle
    /\ point.fromSlopeIntersection
         (path.rotate (paths.Line (2, 0) (0, 2)) 90
                      (point.middle (paths.Line (2, 0) (0, 2))))
         (path.rotate (paths.Line (0, 0) (2, 0)) 90
                      (point.middle (paths.Line (0, 0) (2, 0))))
       = Some (circle_origin circle)
    /\ measure.pointDistance (circle_origin circle) (0, 0)
       = measure.pointDistance (circle_origin circle) (2, 0)
    /\ measure.pointDistance (circle_origin circle) (2, 0)
       = measure.pointDistance (circle_origin circle) (0, 2)
    /\ circle_radius circle = measure.pointDistance (circle_origin circle) (0, 0).
Proof.
  exact (Circle_3points_equidistant (0, 0) (2, 0) (0, 2) not_collinear_example).
Defined.

(** ** C4: the three-point Arc *)

(** C4. Arc from three points that are not collinear, A the start, B the
    through-point, C the end: the origin of the returned arc is the
    circumcentre, at the distance of the radius from A, from B and from C;
    the start and end angles of the returned arc
    are the angles of A and C from the circumcentre, in that order when the
    angle of B is within the span from A to C and swapped when it is not (the
    test gives the same answer whether or not the ends of the span count);
    in both cases the angle of B lies within the span of the returned arc,
    from its start angle to its end angle (one revolution added to an end
    angle below the start). *)
Theorem Arc_3points_contains_through_point
        (u : IPoint -> result R) (pointA pointB pointC : IPoint) :
  ~ collinear pointA pointB pointC ->
  exists (o : IPoint) (radius startAngle endAngle : R),
    paths.Circle (paths.CircleOf3Points pointA pointB pointC)
    = Ok (mkCircle pathType.Circle o radius)
    /\ paths.Arc u (paths.ArcOf3Points pointA pointB pointC)
       = Ok (paths.mkArcObject (Some o) (Some radius) (Some startAngle) (Some endAngle)
                               pathType.Arc)
    /\ measure.pointDistance o pointA = radius
    /\ measure.pointDistance o pointB = radius
    /\ measure.pointDistance o pointC = radius
    /\ ((measure.isBetweenArcAngles
           (angle.ofPointInDegrees o pointB)
           (mkArc pathType.Circle o radius
                  (angle.ofPointInDegrees o pointA) (angle.ofPointInDegrees o pointC))
           false = true
         /\ startAngle = angle.ofPointInDegrees o pointA
         /\ endAngle = angle.ofPointInDegrees o pointC)
        \/ (measure.isBetweenArcAngles
              (angle.ofPointInDegrees o pointB)
              (mkArc pathType.Circle o radius
                     (angle.ofPointInDegrees o pointA) (angle.ofPointInDegrees o pointC))
              false = false
            /\ startAngle = angle.ofPointInDegrees o pointC
            /\ endAngle = angle.ofPointInDegrees o pointA))
    /\ measure.isBetweenArcAngles
         (angle.ofPointInDegrees o pointB)
         (mkArc pathType.Circle o radius
                (angle.ofPointInDegrees o pointA) (angle.ofPointInDegrees o pointC))
         false
       = measure.isBetweenArcAngles
           (angle.ofPointInDegrees o pointB)
           (mkArc pathType.Circle o radius
                  (angle.ofPointInDegrees o pointA) (angle.ofPointInDegrees o pointC))
           true
    /\ (forall includeEndpoints : bool,
          measure.isBetweenArcAngles (angle.ofPointInDegrees o pointB)
            (mkArc pathType.Arc o radius startAngle endAngle) includeEndpoints = true)
    /\ (startAngle <= angle.ofPointInDegrees o pointB
                   <= (if Rlt_dec endAngle startAngle then endAngle + 360 else endAngle)
        \/ startAngle <= angle.ofPointInDegrees o pointB + 360
                      <= (if Rlt_dec endAngle startAngle then endAngle + 360 else endAngle)).
Proof.
  intros Hnc.
  destruct (not_collinear_distinct _ _ _ Hnc) as (Hab & Hbc & Hac).
  destruct (fromSlopeIntersection_perpendiculars pointA pointB pointC Hnc)
    as (o & Ho & Hdab & Hdbc).
  pose proof (Circle_3points_defined _ _ _ _ Ho) as Hcircle.
  set (a := angle.ofPointInDegrees o pointA).
  set (b := angle.ofPointInDegrees o pointB).
  set (c := angle.ofPointInDegrees o pointC).
  assert (Ha : 0 <= a < 360) by apply ofPointInDegrees_range.
  assert (Hb : 0 <= b < 360) by apply ofPointInDegrees_range.
  assert (Hc : 0 <= c < 360) by apply ofPointInDegrees_range.
  assert (Hnab : a <> b).
  { intros He. apply Hab. apply (ofPointInDegrees_inj o); assumption. }
  assert (Hnbc : b <> c).
  { intros He. apply Hbc. apply (ofPointInDegrees_inj o); assumption. }
  assert (Hnac : a <> c).
  { intros He. apply Hac. apply (ofPointInDegrees_inj o); [congruence|assumption]. }
  exists o, (measure.pointDistance o pointA).
  unfold paths.Arc. rewrite Hcircle. cbn [bind circle_origin circle_radius circle_type].
  fold a b c.
  destruct (measure.isBetweenArcAngles b
              (mkArc pathType.Circle o (measure.pointDistance o pointA) a c) false)
    eqn:Hbetween; cbn [negb].
  - exists a, c. split; [reflexivity|]. split; [reflexivity|].
    split; [reflexivity|]. split; [symmetry; exact Hdab|].
    split; [rewrite Hdab; symmetry; exact Hdbc|].
    split; [left; auto|].
    split; [rewrite <- Hbetween; apply isBetweenArcAngles_flag_eq; assumption|].
    assert (Hall : forall flag, measure.isBetweenArcAngles b
              (mkArc pathType.Arc o (measure.pointDistance o pointA) a c) flag = true).
    { intros flag. apply (isBetweenArcAngles_flag pathType.Circle) with (flag := false);
        assumption. }
    split; [exact Hall|].
    apply (isBetweenArcAngles_span pathType.Arc o (measure.pointDistance o pointA))
      with (flag := true); solve [assumption | apply Hall].
  - exists c, a. split; [reflexivity|]. split; [reflexivity|].
    split; [reflexivity|]. split; [symmetry; exact Hdab|].
    split; [rewrite Hdab; symmetry; exact Hdbc|].
    split; [right; auto|].
    split; [rewrite <- Hbetween; apply isBetweenArcAngles_flag_eq; assumption|].
    assert (Hall : forall flag, measure.isBetweenArcAngles b
              (mkArc pathType.Arc o (measure.pointDistance o pointA) c a) flag = true).
    { intros flag.
      apply (isBetweenArcAngles_complement pathType.Circle) with (flag := false);
        assumption. }
    split; [exact Hall|].
    apply (isBetweenArcAngles_span pathType.Arc o (measure.pointDistance o pointA))
      with (flag := true); solve [assumption | congruence | apply Hall].
Qed.

Lemma Arc_3points_contains_through_point_witness :
  exists (o : IPoint) (radius startAngle endAngle : R),
    paths.Circle (paths.CircleOf3Points (0, 0) (2, 0) (0, 2))
    = Ok (mkCircle pathType.Circle o radius)
    /\ paths.Arc (fun _ => TypeError) (paths.ArcOf3Points (0, 0) (2, 0) (0, 2))
       = Ok (paths.mkArcObject (Some o) (Some radius) (Some startAngle) (Some endAngle)
                               pathType.Arc)
    /\ measure.pointDistance o (0, 0) = radius
    /\ measure.pointDistance o (2, 0) = radius
    /\ measure.pointDistance o (0, 2) = radius
    /\ ((measure.isBetweenArcAngles
           (angle.ofPointInDegrees o (2, 0))
           (mkArc pathType.Circle o radius
                  (angle.ofPointInDegrees o (0, 0)) (angle.ofPointInDegrees o (0, 2)))
           false = true
         /\ startAngle = angle.ofPointInDegrees o (0, 0)
         /\ endAngle = angle.ofPointInDegrees o (0, 2))
        \/ (measure.isBetweenArcAngles
              (angle.ofPointInDegrees o (2, 0))
              (mkArc pathType.Circle o radius
                     (angle.ofPointInDegrees o (0, 0)) (angle.ofPointInDegrees o (0, 2)))
              false = false
            /\ startAngle = angle.ofPointInDegrees o (0, 2)
            /\ endAngle = angle.ofPointInDegrees o (0, 0)))
    /\ measure.isBetweenArcAngles
         (angle.ofPointInDegrees o (2, 0))
         (mkArc pathType.Circle o radius
                (angle.ofPointInDegrees o (0, 0)) (angle.ofPointInDegrees o (0, 2)))
         false
       = measure.isBetweenArcAngles
           (angle.ofPointInDegrees o (2, 0))
           (mkArc pathType.Circle o radius
                  (angle.ofPointInDegrees o (0, 0)) (angle.ofPointInDegrees o (0, 2)))
           true
    /\ (forall includeEndpoints : bool,
          measure.isBetweenArcAngles (angle.ofPointInDegrees o (2, 0))
            (mkArc pathType.Arc o radius startAngle endAngle) includeEndpoints = true)
    /\ (startAngle <= angle.ofPointInDegrees o (2, 0)
                   <= (if Rlt_dec endAngle startAngle then endAngle + 360 else endAngle)
        \/ startAngle <= angle.ofPointInDegrees o (2, 0) + 360
                      <= (if Rlt_dec endAngle startAngle then endAngle + 360 else endAngle)).
Proof.
  exact (Arc_3points_contains_through_point (fun _ => TypeError) (0, 0) (2, 0) (0, 2)
           not_collinear_example).
Defined.

(** ** C3: degenerate inputs *)

Lemma sqrt_lt_sqr (x y : R) : 0 <= x -> x < sqrt y -> x * x < y.
Proof.
  intros Hx Hlt.
  destruct (Rle_lt_dec y (x * x)) as [Hle|Hgt]; [|exact Hgt].
  exfalso.
  assert (H : sqrt y <= sqrt (x * x)) by (apply sqrt_le_1_alt; exact Hle).
  rewrite sqrt_square in H by exact Hx. lra.
Qed.

(** A radius below half the distance of the centres: the circles do not
    meet. *)
Lemma intersection_radius_too_small (t t' : pathType.t) (pointA pointB : IPoint) (radius : R) :
  2 * radius < measure.pointDistance pointA pointB ->
  path.intersection (mkCircle t pointA radius) (mkCircle t' pointB radius) = None.
Proof.
  intros Hsmall.
  unfold path.intersection. cbn [circle_origin circle_radius]. cbv zeta.
  destruct (Rle_dec radius 0) as [|Hr]; [reflexivity|].
  destruct (Req_dec_T _ 0) as [|Hd2]; [reflexivity|].
  destruct (Rlt_dec _ 0) as [|Hh2]; [reflexivity|].
  exfalso. apply Hh2.
  unfold measure.pointDistance in Hsmall. cbv zeta in Hsmall.
  apply sqrt_lt_sqr in Hsmall; [|lra].
  set (d2 := (fst pointB - fst pointA) * (fst pointB - fst pointA)
             + (snd pointB - snd pointA) * (snd pointB - snd pointA)) in *.
  replace ((radius * radius - radius * radius + d2) / (2 * d2)) with (1 / 2)
    by (field; exact Hd2).
  lra.
Qed.

Lemma Arc_svg_no_intersection (u : IPoint -> result R)
      (pointA pointB : IPoint) (radius : R) (largeArc clockwise : bool) :
  path.intersection (mkCircle pathType.Circle pointA radius)
                    (mkCircle pathType.Circle pointB radius) = None ->
  paths.Arc u (paths.ArcOfSvg pointA pointB radius largeArc clockwise)
  = Ok (paths.mkArcObject None (Some radius) None None pathType.Arc).
Proof.
  intros Hi. unfold paths.Arc. cbn [paths.Circle bind]. rewrite Hi. reflexivity.
Qed.

(** C3, as the code has it.  An SVG-style Arc whose radius is less than half
    the distance between the two endpoints does not fail: the constructor
    returns an arc that carries the radius and the Arc tag and leaves origin,
    startAngle and endAngle unassigned.  A three-point Circle, and a
    three-point Arc, whose points are pairwise distinct and collinear fails:
    the perpendiculars of the two chords are parallel and do not intersect,
    and reading the missing origin for the radius raises.  (Points that
    coincide are left out: a chord of length zero has no perpendicular.) *)
Theorem degenerate_input_results (u : IPoint -> result R) :
  (forall (pointA pointB : IPoint) (radius : R) (largeArc clockwise : bool),
      2 * radius < measure.pointDistance pointA pointB ->
      paths.Arc u (paths.ArcOfSvg pointA pointB radius largeArc clockwise)
      = Ok (paths.mkArcObject None (Some radius) None None pathType.Arc))
  /\ (forall pointA pointB pointC : IPoint,
        pointA <> pointB -> pointB <> pointC -> pointA <> pointC ->
        collinear pointA pointB pointC ->
        paths.Circle (paths.CircleOf3Points pointA pointB pointC) = TypeError
        /\ paths.Arc u (paths.ArcOf3Points pointA pointB pointC) = TypeError).
Proof.
  split.
  - intros pointA pointB radius largeArc clockwise Hsmall.
    apply Arc_svg_no_intersection, intersection_radius_too_small, Hsmall.
  - intros pointA pointB pointC _ _ _ Hc.
    assert (H : paths.Circle (paths.CircleOf3Points pointA pointB pointC) = TypeError).
    { apply Circle_3points_undefined, fromSlopeIntersection_perpendiculars_collinear, Hc. }
    split; [exact H|]. unfold paths.Arc. rewrite H. reflexivity.
Qed.

Lemma radius_too_small_example : 2 * 1 < measure.pointDistance (0, 0) (10, 0).
Proof.
  unfold measure.pointDistance. cbn [fst snd].
  sqrt_is 10. lra.
Qed.

Lemma collinear_example : collinear (0, 0) (1, 1) (2, 2).
Proof. unfold collinear, cross3. cbn [fst snd]. lra. Qed.

Lemma collinear_example_distinct :
  ((0, 0) : IPoint) <> (1, 1) /\ ((1, 1) : IPoint) <> (2, 2) /\ ((0, 0) : IPoint) <> (2, 2).
Proof. repeat split; intros H; injection H; intros; lra. Qed.

Lemma degenerate_input_results_witness :
  paths.Arc (fun _ => TypeError) (paths.ArcOfSvg (0, 0) (10, 0) 1 false false)
  = Ok (paths.mkArcObject None (Some 1) None None pathType.Arc)
  /\ paths.Circle (paths.CircleOf3Points (0, 0) (1, 1) (2, 2)) = TypeError
  /\ paths.Arc (fun _ => TypeError) (paths.ArcOf3Points (0, 0) (1, 1) (2, 2)) = TypeError.
Proof.
  split.
  - exact (proj1 (degenerate_input_results (fun _ => TypeError))
             (0, 0) (10, 0) 1 false false radius_too_small_example).
  - exact (proj2 (degenerate_input_results (fun _ => TypeError))
             (0, 0) (1, 1) (2, 2)
             (proj1 collinear_example_distinct)
             (proj1 (proj2 collinear_example_distinct))
             (proj2 (proj2 collinear_example_distinct))
             collinear_example).
Defined.

(** The claim C3 fails for the SVG-style Arc of radius 1 between (0,0) and
    (10,0): the circles do not meet, and the constructor returns a value with
    origin, startAngle and endAngle missing instead of failing (the
    behaviour on an undefined origin plays no part; it is set to raise). *)
Lemma Arc_svg_radius_too_small_counterexample :
  path.intersection (mkCircle pathType.Circle (0, 0) 1) (mkCircle pathType.Circle (10, 0) 1)
  = None
  /\ exists arc : paths.ArcObject,
      paths.Arc (fun _ => TypeError) (paths.ArcOfSvg (0, 0) (10, 0) 1 false false) = Ok arc
      /\ paths.origin arc = None
      /\ paths.startAngle arc = None
      /\ paths.endAngle arc = None
      /\ paths.radius arc = Some 1.
Proof.
  pose proof (intersection_radius_too_small pathType.Circle pathType.Circle
                (0, 0) (10, 0) 1 radius_too_small_example) as Hi.
  split; [exact Hi|].
  eexists. split; [apply Arc_svg_no_intersection, Hi|].
  cbn. repeat split.
Qed.

(** ** Angles of concrete directions *)

Lemma toDegrees_0 : angle.toDegrees 0 = 0.
Proof. unfold angle.toDegrees. field. apply PI_neq0. Qed.

Lemma toDegrees_PI : angle.toDegrees PI = 180.
Proof. unfold angle.toDegrees. field. apply PI_neq0. Qed.

Lemma toDegrees_lt (x y : R) : x < y -> angle.toDegrees x < angle.toDegrees y.
Proof.
  intros H. pose proof PI_RGT_0 as HPI. unfold angle.toDegrees.
  apply Rmult_lt_compat_r; [apply Rinv_0_lt_compat; lra|]. lra.
Qed.

(** A point due east of the origin is at 0 degrees, one due west at 180. *)
Lemma ofPointInDegrees_east (o p : IPoint) :
  snd p = snd o -> fst o < fst p -> angle.ofPointInDegrees o p = 0.
Proof.
  intros Hy Hx. unfold angle.ofPointInDegrees, angle.ofPointInRadians.
  cbv zeta. rewrite Hy.
  destruct (Rlt_dec 0 (fst p - fst o)); [|lra].
  destruct (Rle_dec 0 (snd o - snd o)); [|lra].
  replace ((snd o - snd o) / (fst p - fst o)) with 0 by (field; lra).
  rewrite atan_0. apply toDegrees_0.
Qed.

Lemma ofPointInDegrees_west (o p : IPoint) :
  snd p = snd o -> fst p < fst o -> angle.ofPointInDegrees o p = 180.
Proof.
  intros Hy Hx. unfold angle.ofPointInDegrees, angle.ofPointInRadians.
  cbv zeta. rewrite Hy.
  destruct (Rlt_dec 0 (fst p - fst o)); [lra|].
  destruct (Rlt_dec (fst p - fst o) 0); [|lra].
  replace ((snd o - snd o) / (fst p - fst o)) with 0 by (field; lra).
  rewrite atan_0. replace (0 + PI) with PI by ring. apply toDegrees_PI.
Qed.

(** ** C8: tangent circles *)

(** Circles of radius 1 about (1,0) and (-1,0) touch in (0,0). *)
Lemma intersection_tangent :
  path.intersection (mkCircle pathType.Circle (1, 0) 1) (mkCircle pathType.Circle (-1, 0) 1)
  = Some (mkIntersection [ (0, 0) ]).
Proof.
  unfold path.intersection. cbn [circle_origin circle_radius fst snd].
  destruct (Rle_dec 1 0); [lra|].
  destruct (Req_dec_T _ 0); [lra|].
  destruct (Rlt_dec _ 0); [lra|].
  destruct (Rlt_dec 0 _); [lra|].
  do 2 f_equal. repeat f_equal; lra.
Qed.

(** C8, on the code.  For pointA = (1,0), pointB = (-1,0) and radius 1 the
    only candidate centre is (0,0) and its span is a half turn, of size 180
    degrees.  The loop of the constructor still runs twice and reads
    [origins.intersectionPoints[1]] first, which is undefined.  Whatever
    [angle.ofPointInDegrees] does with the undefined origin, the two values
    of largeArc do not return the same arc: either the constructor raises
    for both, or the two returned arcs differ in their origin, which is
    undefined in one of them. *)
Theorem Arc_svg_tangent_flags_disagree (u : IPoint -> result R) :
  path.intersection (mkCircle pathType.Circle (1, 0) 1) (mkCircle pathType.Circle (-1, 0) 1)
  = Some (mkIntersection [ (0, 0) ])
  /\ paths.arcSpan u (Some (0, 0)) (1, 0) (-1, 0) false
     = Ok (paths.mkSpan (Some (0, 0)) 0 180 180)
  /\ paths.arcSpan u (Some (0, 0)) (1, 0) (-1, 0) true
     = Ok (paths.mkSpan (Some (0, 0)) 180 360 180)
  /\ js_index [ ((0, 0) : IPoint) ] 1 = None
  /\ forall clockwise : bool,
       (forall largeArc : bool,
           paths.Arc u (paths.ArcOfSvg (1, 0) (-1, 0) 1 largeArc clockwise) = TypeError)
       \/ (exists small large : paths.ArcObject,
              paths.Arc u (paths.ArcOfSvg (1, 0) (-1, 0) 1 false clockwise) = Ok small
              /\ paths.Arc u (paths.ArcOfSvg (1, 0) (-1, 0) 1 true clockwise) = Ok large
              /\ ((paths.origin small = None /\ paths.origin large = Some (0, 0))
                  \/ (paths.origin small = Some (0, 0) /\ paths.origin large = None))).
Proof.
  assert (Hfalse : paths.arcSpan u (Some (0, 0)) (1, 0) (-1, 0) false
                   = Ok (paths.mkSpan (Some (0, 0)) 0 180 180)).
  { rewrite arcSpan_defined. cbv zeta.
    rewrite (ofPointInDegrees_east (0, 0) (1, 0)) by (cbn; lra).
    rewrite (ofPointInDegrees_west (0, 0) (-1, 0)) by (cbn; lra).
    destruct (Rlt_dec 180 0); [lra|].
    do 2 f_equal. lra. }
  assert (Htrue : paths.arcSpan u (Some (0, 0)) (1, 0) (-1, 0) true
                  = Ok (paths.mkSpan (Some (0, 0)) 180 360 180)).
  { rewrite arcSpan_defined. cbv zeta.
    rewrite (ofPointInDegrees_east (0, 0) (1, 0)) by (cbn; lra).
    rewrite (ofPointInDegrees_west (0, 0) (-1, 0)) by (cbn; lra).
    destruct (Rlt_dec 0 180); [|lra].
    f_equal. f_equal; lra. }
  split; [exact intersection_tangent|].
  split; [exact Hfalse|]. split; [exact Htrue|]. split; [reflexivity|].
  intros clockwise.
  unfold paths.Arc. cbn [paths.Circle bind].
  rewrite intersection_tangent. cbn [intersectionPoints].
  rewrite spansLoop_one.
  destruct (paths.arcSpan u None (1, 0) (-1, 0) clockwise) as [span1|] eqn:S1.
  - right. pose proof (arcSpan_undefined _ _ _ _ _ S1) as Hnone.
    cbn [bind].
    match goal with
    | |- context [paths.arcSpan u ?o ?a ?b clockwise] =>
        assert (S0 : exists span0, paths.arcSpan u o a b clockwise = Ok span0
                                   /\ paths.span_origin span0 = Some (0, 0))
    end.
    { destruct clockwise; eexists; (split; [eassumption|reflexivity]). }
    destruct S0 as (span0 & -> & Hsome). cbn [bind paths.insertSpan].
    destruct (Rgt_dec _ _); cbn [app bind js_index nth_error deref];
      do 2 eexists; (split; [reflexivity|]); (split; [reflexivity|]);
      cbn [paths.origin]; rewrite Hnone, Hsome; auto.
  - left. intros largeArc. reflexivity.
Qed.

(** ** Angles of points in the quadrants *)

Lemma toDegrees_PI2 : angle.toDegrees (PI / 2) = 90.
Proof. unfold angle.toDegrees. field. apply PI_neq0. Qed.

(** A point to the upper right of the origin is below 90 degrees, a point to
    its left is above 90 degrees. *)
Lemma ofPointInDegrees_upper_right (o p : IPoint) :
  fst o < fst p -> snd o <= snd p -> angle.ofPointInDegrees o p < 90.
Proof.
  intros Hx Hy. rewrite <- toDegrees_PI2. apply toDegrees_lt.
  unfold angle.ofPointInRadians. cbv zeta.
  destruct (Rlt_dec 0 (fst p - fst o)); [|lra].
  destruct (Rle_dec 0 (snd p - snd o)); [|lra].
  apply atan_bound.
Qed.

Lemma ofPointInDegrees_left (o p : IPoint) :
  fst p < fst o -> 90 < angle.ofPointInDegrees o p.
Proof.
  intros Hx. rewrite <- toDegrees_PI2. apply toDegrees_lt.
  unfold angle.ofPointInRadians. cbv zeta.
  destruct (Rlt_dec 0 (fst p - fst o)); [lra|].
  destruct (Rlt_dec (fst p - fst o) 0); [|lra].
  pose proof (atan_bound ((snd p - snd o) / (fst p - fst o))). lra.
Qed.

Lemma Arc_2points_defined (u : IPoint -> result R)
      (pointA pointB : IPoint) (clockwise : option bool) :
  paths.Arc u (paths.ArcOf2Points pointA pointB clockwise)
  = Ok (paths.mkArcObject
          (Some (point.average pointA pointB))
          (Some (measure.pointDistance (point.average pointA pointB) pointA))
          (Some (angle.ofPointInDegrees (point.average pointA pointB)
                   (if paths.truthy clockwise then pointB else pointA)))
          (Some (angle.ofPointInDegrees (point.average pointA pointB)
                   (if paths.truthy clockwise then pointA else pointB)))
          pathType.Arc).
Proof. reflexivity. Qed.

(** The end angle of a candidate can lie one revolution above the angle of
    its endpoint: for the candidate centre (3,-4) of the endpoints A = (0,0)
    and B = (6,0), clockwise false, the angle of B from the centre is below
    the angle of A, and the end angle is the angle of B plus 360 degrees. *)
Lemma arcSpan_endAngle_wraps_example :
  exists span : paths.IArcSpan,
    paths.arcSpan (fun _ => TypeError) (Some (3, -4)) (0, 0) (6, 0) false = Ok span
    /\ paths.span_startAngle span = angle.ofPointInDegrees (3, -4) (0, 0)
    /\ paths.span_endAngle span = angle.ofPointInDegrees (3, -4) (6, 0) + 360.
Proof.
  eexists. split; [apply arcSpan_defined|]. cbn.
  pose proof (ofPointInDegrees_upper_right (3, -4) (6, 0)) as He.
  pose proof (ofPointInDegrees_left (3, -4) (0, 0)) as Hs.
  cbn [fst snd] in He, Hs.
  destruct (Rlt_dec _ _) as [|Hn]; [|exfalso; apply Hn; lra].
  repeat split.
Qed.

(** ** C2: the side of a Parallel *)

(** The Parallel is the clone of the line, moved to the origin it has. *)
Lemma Parallel_unfold (toLine : IPathLine) (distance : R) (nearPoint : IPoint) :
  paths.Parallel toLine distance nearPoint
  = path.move (mkLine pathType.Line (point.clone (line_origin toLine))
                      (point.clone (line_end toLine)))
              (line_origin (paths.Parallel toLine distance nearPoint)).
Proof. reflexivity. Qed.

Lemma Parallel_origin (toLine : IPathLine) (distance : R) (nearPoint : IPoint) :
  line_origin (paths.Parallel toLine distance nearPoint)
  = paths.selectNewOrigin
      (paths.getNewOrigin toLine distance nearPoint (angle.ofLineInDegrees toLine) (-90))
      (paths.getNewOrigin toLine distance nearPoint (angle.ofLineInDegrees toLine) 90).
Proof. reflexivity. Qed.

(** C2, as the code has it.  Of the two candidate origins, offset from the
    origin of the line by [distance] at -90 and at +90 degrees from the angle
    of the line, the constructor moves the line to the first (-90) when it
    is strictly closer to nearPoint, and to the second (+90) when that one is
    strictly closer and also when the two are equally close. *)
Theorem Parallel_selects_nearer_origin
        (toLine : IPathLine) (distance : R) (nearPoint : IPoint) :
  let candidate (offsetAngle : R) : IPoint :=
    point.add (line_origin toLine)
              (point.fromPolar
                 (angle.toRadians (angle.ofLineInDegrees toLine + offsetAngle))
                 distance) in
  (measure.pointDistance (candidate (-90)) nearPoint
   < measure.pointDistance (candidate 90) nearPoint ->
   line_origin (paths.Parallel toLine distance nearPoint) = candidate (-90))
  /\ (measure.pointDistance (candidate 90) nearPoint
      < measure.pointDistance (candidate (-90)) nearPoint ->
      line_origin (paths.Parallel toLine distance nearPoint) = candidate 90)
  /\ (measure.pointDistance (candidate (-90)) nearPoint
      = measure.pointDistance (candidate 90) nearPoint ->
      line_origin (paths.Parallel toLine distance nearPoint) = candidate 90).
Proof.
  intros candidate. rewrite Parallel_origin.
  unfold paths.selectNewOrigin, paths.getNewOrigin.
  cbn [paths.nearness paths.newOrigin_origin]. fold (candidate (-90)) (candidate 90).
  repeat split; intros H; destruct (Rlt_dec _ _); try reflexivity; exfalso; lra.
Qed.

Lemma toRadians_minus_90 : angle.toRadians (0 + -90) = - (PI / 2).
Proof. unfold angle.toRadians. field. Qed.

Lemma toRadians_plus_90 : angle.toRadians (0 + 90) = PI / 2.
Proof. unfold angle.toRadians. field. Qed.

Lemma ofLineInDegrees_example :
  angle.ofLineInDegrees (paths.Line (0, 0) (10, 0)) = 0.
Proof.
  unfold angle.ofLineInDegrees. cbn [paths.Line line_origin line_end].
  apply ofPointInDegrees_east; cbn; lra.
Qed.

(** The two candidate origins at distance 2 from the line from (0,0) to
    (10,0). *)
Lemma Parallel_candidates_example :
  point.add (0, 0)
    (point.fromPolar
       (angle.toRadians (angle.ofLineInDegrees (paths.Line (0, 0) (10, 0)) + -90)) 2)
  = (0, -2)
  /\ point.add (0, 0)
       (point.fromPolar
          (angle.toRadians (angle.ofLineInDegrees (paths.Line (0, 0) (10, 0)) + 90)) 2)
     = (0, 2).
Proof.
  rewrite ofLineInDegrees_example, toRadians_minus_90, toRadians_plus_90.
  unfold point.add, point.fromPolar. cbn [fst snd].
  rewrite cos_neg, sin_neg, cos_PI2, sin_PI2.
  split; f_equal; lra.
Qed.

Lemma pointDistance_vertical (x y y' : R) :
  y <= y' -> measure.pointDistance (x, y) (x, y') = y' - y.
Proof.
  intros H. unfold measure.pointDistance. cbn [fst snd].
  replace ((x - x) * (x - x) + (y' - y) * (y' - y)) with ((y' - y) * (y' - y)) by ring.
  apply sqrt_square. lra.
Qed.

Lemma Parallel_selects_nearer_origin_witness :
  let toLine := paths.Line (0, 0) (10, 0) in
  let candidate (offsetAngle : R) : IPoint :=
    point.add (line_origin toLine)
              (point.fromPolar
                 (angle.toRadians (angle.ofLineInDegrees toLine + offsetAngle)) 2) in
  (measure.pointDistance (candidate (-90)) (0, -5)
   < measure.pointDistance (candidate 90) (0, -5)
   /\ line_origin (paths.Parallel toLine 2 (0, -5)) = candidate (-90))
  /\ (measure.pointDistance (candidate 90) (0, 5)
      < measure.pointDistance (candidate (-90)) (0, 5)
      /\ line_origin (paths.Parallel toLine 2 (0, 5)) = candidate 90)
  /\ (measure.pointDistance (candidate (-90)) (0, 0)
      = measure.pointDistance (candidate 90) (0, 0)
      /\ line_origin (paths.Parallel toLine 2 (0, 0)) = candidate 90).
Proof.
  intros toLine candidate.
  destruct Parallel_candidates_example as [H1 H2].
  assert (Hfirst : candidate (-90) = (0, -2)) by exact H1.
  assert (Hsecond : candidate 90 = (0, 2)) by exact H2.
  assert (Hlow : measure.pointDistance (candidate (-90)) (0, -5)
                 < measure.pointDistance (candidate 90) (0, -5)).
  { rewrite Hfirst, Hsecond, (pointDistance_sym (0, -2)), (pointDistance_sym (0, 2)).
    rewrite !pointDistance_vertical by lra. lra. }
  assert (Hhigh : measure.pointDistance (candidate 90) (0, 5)
                  < measure.pointDistance (candidate (-90)) (0, 5)).
  { rewrite Hfirst, Hsecond. rewrite !pointDistance_vertical by lra. lra. }
  assert (Htie : measure.pointDistance (candidate (-90)) (0, 0)
                 = measure.pointDistance (candidate 90) (0, 0)).
  { rewrite Hfirst, Hsecond, (pointDistance_sym (0, 2)).
    rewrite !pointDistance_vertical by lra. lra. }
  split; [|split].
  - split; [exact Hlow|].
    exact (proj1 (Parallel_selects_nearer_origin toLine 2 (0, -5)) Hlow).
  - split; [exact Hhigh|].
    exact (proj1 (proj2 (Parallel_selects_nearer_origin toLine 2 (0, 5))) Hhigh).
  - split; [exact Htie|].
    exact (proj2 (proj2 (Parallel_selects_nearer_origin toLine 2 (0, 0))) Htie).
Defined.

(** The claim C2 fails on a tie.  For the line from (0,0) to (10,0), distance
    2 and nearPoint (0,0), the candidates (0,-2) and (0,2) are equally close
    to nearPoint, and the line is moved to the second one, at +90 degrees. *)
Lemma Parallel_tie_counterexample :
  let toLine := paths.Line (0, 0) (10, 0) in
  let first := paths.getNewOrigin toLine 2 (0, 0) (angle.ofLineInDegrees toLine) (-90) in
  let second := paths.getNewOrigin toLine 2 (0, 0) (angle.ofLineInDegrees toLine) 90 in
  paths.newOrigin_origin first = (0, -2)
  /\ paths.newOrigin_origin second = (0, 2)
  /\ paths.nearness first = paths.nearness second
  /\ line_origin (paths.Parallel toLine 2 (0, 0)) = (0, 2)
  /\ line_origin (paths.Parallel toLine 2 (0, 0)) <> paths.newOrigin_origin first.
Proof.
  intros toLine first second.
  destruct Parallel_candidates_example as [H1 H2].
  assert (Hf : paths.newOrigin_origin first = (0, -2)) by exact H1.
  assert (Hs : paths.newOrigin_origin second = (0, 2)) by exact H2.
  assert (Hn : paths.nearness first = paths.nearness second).
  { unfold first, second, paths.getNewOrigin. cbn [paths.nearness].
    cbn [paths.Line line_origin toLine]. unfold toLine. rewrite H1, H2.
    rewrite (pointDistance_sym (0, 2)). rewrite !pointDistance_vertical by lra. lra. }
  assert (Ho : line_origin (paths.Parallel toLine 2 (0, 0)) = (0, 2)).
  { rewrite Parallel_origin. fold first second. unfold paths.selectNewOrigin.
    rewrite Hn. destruct (Rlt_dec _ _); [lra|exact Hs]. }
  repeat split; try assumption.
  rewrite Ho, Hf. intros He. injection He as He. lra.
Qed.

(** ** C7, C9: BezierSeed *)

(** C7, on the code.  The flat four-point form stores the origin; the
    three-argument and the four-argument forms never assign it, so the three
    results agree on the tag, the controls and the end, and differ in the
    origin. *)
Theorem BezierSeed_cubic_forms_differ_in_origin (o c1 c2 e : IPoint) :
  paths.BezierSeed (paths.SeedOfPoints [o; c1; c2; e])
  = paths.mkBezierSeedObject pathType.BezierSeed (Some o) (Some e)
                             (Some (paths.PointArray [c1; c2]))
  /\ paths.BezierSeed (paths.SeedOfControls o [c1; c2] e)
     = paths.mkBezierSeedObject pathType.BezierSeed None (Some e)
                                (Some (paths.PointArray [c1; c2]))
  /\ paths.BezierSeed (paths.SeedOfCubic o c1 c2 e)
     = paths.mkBezierSeedObject pathType.BezierSeed None (Some e)
                                (Some (paths.PointArray [c1; c2]))
  /\ paths.seed_origin (paths.BezierSeed (paths.SeedOfPoints [o; c1; c2; e]))
     <> paths.seed_origin (paths.BezierSeed (paths.SeedOfControls o [c1; c2] e)).
Proof.
  repeat split. cbn. discriminate.
Qed.

(** C9. BezierSeed from a point array whose length is neither 3 nor 4: the
    origin is [points[0]], the end is [points[1]] (each undefined when the
    array is too short) and controls is left undefined. *)
Theorem BezierSeed_points_other_lengths (points : list IPoint) :
  length points <> 3%nat -> length points <> 4%nat ->
  paths.BezierSeed (paths.SeedOfPoints points)
  = paths.mkBezierSeedObject pathType.BezierSeed (js_index points 0) (js_index points 1)
                             None.
Proof.
  intros H3 H4.
  destruct points as [|p0 [|p1 [|p2 [|p3 [|p4 rest]]]]]; cbn in *;
    try reflexivity; exfalso; auto.
Qed.

Lemma BezierSeed_points_other_lengths_witness :
  paths.BezierSeed (paths.SeedOfPoints [ (0, 0); (1, 1); (2, 1); (3, 0); (4, 4) ])
  = paths.mkBezierSeedObject pathType.BezierSeed (Some (0, 0)) (Some (1, 1)) None
  /\ paths.BezierSeed (paths.SeedOfPoints [ (0, 0); (1, 1) ])
     = paths.mkBezierSeedObject pathType.BezierSeed (Some (0, 0)) (Some (1, 1)) None
  /\ paths.BezierSeed (paths.SeedOfPoints [ (0, 0) ])
     = paths.mkBezierSeedObject pathType.BezierSeed (Some (0, 0)) None None.
Proof.
  split; [|split].
  - apply (BezierSeed_points_other_lengths [ (0, 0); (1, 1); (2, 1); (3, 0); (4, 4) ]);
      cbn; lia.
  - apply (BezierSeed_points_other_lengths [ (0, 0); (1, 1) ]); cbn; lia.
  - apply (BezierSeed_points_other_lengths [ (0, 0) ]); cbn; lia.
Defined.

(** ** C10: the tag of Chord and Parallel *)

(** C10. A Chord and a Parallel carry the tag of a Line, the tag the Line
    constructor assigns; the tags are Line, Circle, Arc and BezierSeed, none
    of them for chords or parallels. *)
Theorem Chord_Parallel_tagged_Line :
  (forall arc : IPathArc, paths.chord_type (paths.Chord arc) = pathType.Line)
  /\ (forall (toLine : IPathLine) (distance : R) (nearPoint : IPoint),
        line_type (paths.Parallel toLine distance nearPoint) = pathType.Line)
  /\ (forall origin end_ : IPoint, line_type (paths.Line origin end_) = pathType.Line)
  /\ (forall tag : pathType.t,
        tag = pathType.Line \/ tag = pathType.Circle
        \/ tag = pathType.Arc \/ tag = pathType.BezierSeed).
Proof.
  repeat split.
  intros tag. destruct tag; auto.
Qed.

(** ** Further properties of the constructors *)

(** X1. Circle and Arc from two points: the centre is the average of the two
    points, and both points are at the distance of the radius from it. *)
Theorem Circle_2points_diameter (u : IPoint -> result R) (pointA pointB : IPoint)
        (clockwise : option bool) :
  exists circle : IPathCircle,
    paths.Circle (paths.CircleOf2Points pointA pointB) = Ok circle
    /\ circle_origin circle = point.average pointA pointB
    /\ measure.pointDistance (circle_origin circle) pointA = circle_radius circle
    /\ measure.pointDistance (circle_origin circle) pointB = circle_radius circle
    /\ exists arc : paths.ArcObject,
         paths.Arc u (paths.ArcOf2Points pointA pointB clockwise) = Ok arc
         /\ paths.origin arc = Some (circle_origin circle)
         /\ paths.radius arc = Some (circle_radius circle)
         /\ paths.type arc = pathType.Arc.
Proof.
  eexists. split; [reflexivity|]. cbn [circle_origin circle_radius].
  split; [reflexivity|]. split; [reflexivity|].
  split.
  - apply pointDistance_eq_of_sqr.
    destruct pointA, pointB. cbn [point.average fst snd]. field.
  - eexists. split; [apply Arc_2points_defined|]. cbn. repeat split.
Qed.

(** X2. A Parallel is a translation of the line: the vector from its origin
    to its end is that of the line, and its origin is at the absolute value
    of [distance] from the origin of the line. *)
Theorem Parallel_translates_line (toLine : IPathLine) (distance : R) (nearPoint : IPoint) :
  point.subtract (line_end (paths.Parallel toLine distance nearPoint))
                 (line_origin (paths.Parallel toLine distance nearPoint))
  = point.subtract (line_end toLine) (line_origin toLine)
  /\ measure.pointDistance (line_origin toLine)
                           (line_origin (paths.Parallel toLine distance nearPoint))
     = Rabs distance.
Proof.
  split.
  - unfold paths.Parallel, path.move, point.subtract, point.add, point.clone.
    cbn [line_origin line_end fst snd]. f_equal; ring.
  - rewrite Parallel_origin. unfold paths.selectNewOrigin, paths.getNewOrigin.
    cbn [paths.nearness paths.newOrigin_origin].
    assert (H : forall a : R,
               measure.pointDistance (line_origin toLine)
                 (point.add (line_origin toLine) (point.fromPolar a distance))
               = Rabs distance).
    { intros a. unfold measure.pointDistance, point.add, point.fromPolar.
      cbn [fst snd]. rewrite <- sqrt_Rsqr_abs. f_equal. unfold Rsqr.
      pose proof (sin2_cos2 a) as Hsc. unfold Rsqr in Hsc.
      replace ((fst (line_origin toLine) + distance * cos a - fst (line_origin toLine))
               * (fst (line_origin toLine) + distance * cos a - fst (line_origin toLine))
               + (snd (line_origin toLine) + distance * sin a - snd (line_origin toLine))
                 * (snd (line_origin toLine) + distance * sin a - snd (line_origin toLine)))
        with (distance * distance * (sin a * sin a + cos a * cos a)) by ring.
      rewrite Hsc. ring. }
    destruct (Rlt_dec _ _); apply H.
Qed.

(** X3. A Chord is tagged as a line and joins the start point and the end
    point of the arc, each at the absolute value of the radius from the
    origin of the arc. *)
Theorem Chord_joins_arc_endpoints (arc : IPathArc) :
  exists startPoint endPoint : IPoint,
    paths.Chord arc = paths.mkChordObject pathType.Line (Some startPoint) (Some endPoint)
    /\ point.fromArc arc = [startPoint; endPoint]
    /\ measure.pointDistance (arc_origin arc) startPoint = Rabs (arc_radius arc)
    /\ measure.pointDistance (arc_origin arc) endPoint = Rabs (arc_radius arc).
Proof.
  assert (H : forall a : R,
             measure.pointDistance (arc_origin arc)
               (point.add (arc_origin arc) (point.fromPolar a (arc_radius arc)))
             = Rabs (arc_radius arc)).
  { intros a. unfold measure.pointDistance, point.add, point.fromPolar.
    cbn [fst snd]. rewrite <- sqrt_Rsqr_abs. f_equal. unfold Rsqr.
    pose proof (sin2_cos2 a) as Hsc. unfold Rsqr in Hsc.
    replace ((fst (arc_origin arc) + arc_radius arc * cos a - fst (arc_origin arc))
             * (fst (arc_origin arc) + arc_radius arc * cos a - fst (arc_origin arc))
             + (snd (arc_origin arc) + arc_radius arc * sin a - snd (arc_origin arc))
               * (snd (arc_origin arc) + arc_radius arc * sin a - snd (arc_origin arc)))
      with (arc_radius arc * arc_radius arc * (sin a * sin a + cos a * cos a)) by ring.
    rewrite Hsc. ring. }
  do 2 eexists. split; [reflexivity|]. split; [reflexivity|].
  split; apply H.
Qed.

(** ** An arc and its endpoints *)

Section ArcEndpoints.

(** The point at the angle and the distance of [p] from [o] is [p]. *)
Lemma fromPolar_ofPointInDegrees (o p : IPoint) :
  point.add o (point.fromPolar (angle.toRadians (angle.ofPointInDegrees o p))
                               (measure.pointDistance o p))
  = p.
Proof.
  destruct (ofPointInDegrees_polar o p) as [Hx Hy].
  unfold point.add, point.fromPolar. cbn [fst snd].
  destruct p as [px py], o as [ox oy]; cbn [fst snd] in *.
  f_equal; lra.
Qed.

Lemma toRadians_plus_360 (a : R) : angle.toRadians (a + 360) = angle.toRadians a + 2 * PI.
Proof. unfold angle.toRadians. field. Qed.

(** One revolution more leads to the same point. *)
Lemma fromPolar_plus_360 (a d : R) :
  point.fromPolar (angle.toRadians (a + 360)) d = point.fromPolar (angle.toRadians a) d.
Proof.
  unfold point.fromPolar. rewrite toRadians_plus_360.
  replace (angle.toRadians a + 2 * PI) with (angle.toRadians a + 2 * INR 1 * PI)
    by (simpl; ring).
  rewrite cos_period, sin_period. reflexivity.
Qed.

(** The chord of an arc about [o] whose radius is the distance of [p] and of
    [q] from [o], from the angle of [p] to the angle of [q], the latter
    possibly one revolution up, runs from [p] to [q]. *)
Lemma Chord_of_angles (t : pathType.t) (o p q : IPoint) (radius endAngle : R) :
  measure.pointDistance o p = radius ->
  measure.pointDistance o q = radius ->
  endAngle = angle.ofPointInDegrees o q \/ endAngle = angle.ofPointInDegrees o q + 360 ->
  paths.Chord (mkArc t o radius (angle.ofPointInDegrees o p) endAngle)
  = paths.mkChordObject pathType.Line (Some p) (Some q).
Proof.
  intros Hp Hq He. unfold paths.Chord, point.fromArc.
  cbn [js_index nth_error arc_origin arc_radius arc_startAngle arc_endAngle].
  assert (Hstart : point.add o (point.fromPolar
                                  (angle.toRadians (angle.ofPointInDegrees o p)) radius) = p).
  { rewrite <- Hp. apply fromPolar_ofPointInDegrees. }
  assert (Hend : point.add o (point.fromPolar (angle.toRadians endAngle) radius) = q).
  { destruct He as [-> | ->]; [|rewrite fromPolar_plus_360];
      rewrite <- Hq; apply fromPolar_ofPointInDegrees. }
  rewrite Hstart, Hend. reflexivity.
Qed.

End ArcEndpoints.

(** ** C6: the clockwise flag *)


(** ** The two-point Arc is a semicircle *)

(** X4. Arc from two distinct points: the end angle is the start angle turned
    by 180 degrees, and the chord of the arc runs from the point the arc
    starts at (A, or B when clockwise) to the other one. *)
Theorem Arc_2points_semicircle (u : IPoint -> result R)
        (pointA pointB : IPoint) (clockwise : option bool) :
  pointA <> pointB ->
  exists (arc : paths.ArcObject) (pathArc : IPathArc),
    paths.Arc u (paths.ArcOf2Points pointA pointB clockwise) = Ok arc
    /\ asPathArc arc = Some pathArc
    /\ arc_endAngle pathArc = opposite (arc_startAngle pathArc)
    /\ paths.Chord pathArc
       = paths.mkChordObject pathType.Line
           (Some (if paths.truthy clockwise then pointB else pointA))
           (Some (if paths.truthy clockwise then pointA else pointB)).
Proof.
  intros Hab.
  set (o := point.average pointA pointB).
  set (first := if paths.truthy clockwise then pointB else pointA).
  set (second := if paths.truthy clockwise then pointA else pointB).
  assert (Hfs : first <> second).
  { unfold first, second. destruct (paths.truthy clockwise); congruence. }
  assert (Hmid : fst second - fst o = - (fst first - fst o)
                 /\ snd second - snd o = - (snd first - snd o)).
  { unfold o, first, second, point.average.
    destruct (paths.truthy clockwise); cbn [fst snd]; split; field. }
  destruct Hmid as [Hx Hy].
  assert (Hd : measure.pointDistance o first = measure.pointDistance o second).
  { apply pointDistance_eq_of_sqr. rewrite Hx, Hy. ring. }
  assert (Hda : measure.pointDistance o first = measure.pointDistance o pointA).
  { unfold first. destruct (paths.truthy clockwise); [|reflexivity].
    unfold first, second in Hd. destruct (paths.truthy clockwise); congruence. }
  assert (Hof : o <> first).
  { intros He. apply Hfs.
    assert (Hz : measure.pointDistance o second = 0)
      by (rewrite <- Hd, <- He; apply pointDistance_refl).
    apply pointDistance_zero in Hz. congruence. }
  exists (paths.mkArcObject (Some o) (Some (measure.pointDistance o pointA))
            (Some (angle.ofPointInDegrees o first))
            (Some (angle.ofPointInDegrees o second)) pathType.Arc).
  eexists. split; [apply Arc_2points_defined|]. split; [reflexivity|].
  cbn [arc_startAngle arc_endAngle]. split.
  - apply ofPointInDegrees_opposite; assumption.
  - apply Chord_of_angles; [congruence | congruence | left; reflexivity].
Qed.

Lemma distinct_points_example : ((0, 0) : IPoint) <> (4, 0).
Proof. intros H. injection H as H. lra. Qed.

Lemma Arc_2points_semicircle_witness :
  exists (arc : paths.ArcObject) (pathArc : IPathArc),
    paths.Arc (fun _ => TypeError) (paths.ArcOf2Points (0, 0) (4, 0) (Some true)) = Ok arc
    /\ asPathArc arc = Some pathArc
    /\ arc_endAngle pathArc = opposite (arc_startAngle pathArc)
    /\ paths.Chord pathArc
       = paths.mkChordObject pathType.Line
           (Some (if paths.truthy (Some true) then (4, 0) else (0, 0)))
           (Some (if paths.truthy (Some true) then (0, 0) else (4, 0))).
Proof.
  exact (Arc_2points_semicircle (fun _ => TypeError) (0, 0) (4, 0) (Some true)
           distinct_points_example).
Defined.

(** ** The four arcs of two endpoints and a radius *)

Section SvgArcGeometry.

Variable u : IPoint -> result R.
Variables (pointA pointB : IPoint) (radius : R).
Variables o0 o1 : IPoint.
Hypothesis Hintersect :
  path.intersection (mkCircle pathType.Circle pointA radius)
                    (mkCircle pathType.Circle pointB radius)
  = Some (mkIntersection [o0; o1]).

Lemma intersection_two_facts :
  pointA <> pointB /\ o0 <> o1
  /\ measure.pointDistance o0 pointA = radius /\ measure.pointDistance o0 pointB = radius
  /\ measure.pointDistance o1 pointA = radius /\ measure.pointDistance o1 pointB = radius.
Proof.
  destruct (intersection_guards _ _ _ Hintersect) as (_ & _ & Hab).
  pose proof (intersection_two_distinct _ _ _ _ Hintersect) as Ho.
  destruct (intersection_sound _ _ _ o0 Hintersect) as [H0a H0b]; [left; reflexivity|].
  destruct (intersection_sound _ _ _ o1 Hintersect) as [H1a H1b]; [right; left; reflexivity|].
  cbn [circle_origin circle_radius] in *.
  rewrite (pointDistance_sym pointA) in H0a, H1a.
  rewrite (pointDistance_sym pointB) in H0b, H1b.
  repeat split; assumption.
Qed.

(** The constructor on two candidates, by the sizes of their spans. *)
Lemma Arc_svg_two_candidates (largeArc clockwise : bool) (span0 span1 : paths.IArcSpan) :
  paths.arcSpan u (Some o0) pointA pointB clockwise = Ok span0 ->
  paths.arcSpan u (Some o1) pointA pointB clockwise = Ok span1 ->
  paths.Arc u (paths.ArcOfSvg pointA pointB radius largeArc clockwise)
  = Ok (let span :=
          if Rgt_dec (paths.span_size span0) (paths.span_size span1)
          then (if largeArc then span0 else span1)
          else (if largeArc then span1 else span0) in
        paths.mkArcObject (paths.span_origin span) (Some radius)
                          (Some (paths.span_startAngle span))
                          (Some (paths.span_endAngle span)) pathType.Arc).
Proof.
  intros S0 S1. unfold paths.Arc. cbn [paths.Circle bind].
  rewrite Hintersect. cbn [intersectionPoints].
  rewrite (spansLoop_two u pointA pointB clockwise o0 o1 span0 span1 S0 S1).
  destruct (Rgt_dec _ _), largeArc; reflexivity.
Qed.

(** A centre at one distance from two distinct points that sees them half a
    turn apart is their midpoint. *)
Lemma half_turn_midpoint (o p q : IPoint) :
  measure.pointDistance o p = measure.pointDistance o q ->
  angle.ofPointInDegrees o q = opposite (angle.ofPointInDegrees o p) ->
  o = point.average p q.
Proof.
  intros Hd Ha.
  destruct (ofPointInDegrees_polar o p) as [Hpx Hpy].
  destruct (ofPointInDegrees_polar o q) as [Hqx Hqy].
  destruct (cos_sin_opposite (angle.ofPointInDegrees o p)) as [Hc Hs].
  rewrite Ha, Hc, <- Hd in Hqx. rewrite Ha, Hs, <- Hd in Hqy.
  unfold point.average. destruct o as [ox oy], p as [px py], q as [qx qy].
  cbn [fst snd] in *. f_equal; lra.
Qed.

Lemma span_half_turn (clockwise : bool) (o : IPoint) (span : paths.IArcSpan) :
  paths.arcSpan u (Some o) pointA pointB clockwise = Ok span ->
  paths.span_size span = 180 ->
  angle.ofPointInDegrees o (if clockwise then pointA else pointB)
  = opposite (angle.ofPointInDegrees o (if clockwise then pointB else pointA)).
Proof.
  intros S Hsize. rewrite arcSpan_defined in S. injection S as <-.
  cbn [paths.span_size] in Hsize.
  pose proof (ofPointInDegrees_range o (if clockwise then pointA else pointB)).
  pose proof (ofPointInDegrees_range o (if clockwise then pointB else pointA)).
  unfold opposite.
  destruct (Rlt_dec _ _) in Hsize; destruct (Rlt_dec _ 180); lra.
Qed.

(** Two distinct centres: neither span is a half turn, so the two sizes
    differ. *)
Lemma mirror_spans_distinct (clockwise : bool) (span0 span1 : paths.IArcSpan) :
  paths.arcSpan u (Some o0) pointA pointB clockwise = Ok span0 ->
  paths.arcSpan u (Some o1) pointA pointB clockwise = Ok span1 ->
  paths.span_size span0 + paths.span_size span1 = 360
  /\ paths.span_size span0 <> paths.span_size span1.
Proof.
  intros S0 S1.
  destruct intersection_two_facts as (Hab & Ho & H0a & H0b & H1a & H1b).
  assert (Hsum : paths.span_size span0 + paths.span_size span1 = 360).
  { apply (mirror_spans_complementary u pointA pointB clockwise o0 o1);
      try assumption; congruence. }
  split; [exact Hsum|]. intros Heq.
  assert (H0 : paths.span_size span0 = 180) by lra.
  assert (H1 : paths.span_size span1 = 180) by lra.
  pose proof (span_half_turn clockwise o0 span0 S0 H0) as A0.
  pose proof (span_half_turn clockwise o1 span1 S1 H1) as A1.
  apply Ho.
  destruct clockwise.
  - rewrite (half_turn_midpoint o0 pointB pointA) by (assumption || congruence).
    rewrite (half_turn_midpoint o1 pointB pointA) by (assumption || congruence).
    reflexivity.
  - rewrite (half_turn_midpoint o0 pointA pointB) by (assumption || congruence).
    rewrite (half_turn_midpoint o1 pointA pointB) by (assumption || congruence).
    reflexivity.
Qed.

(** About one centre, the span taken clockwise and the span taken
    counter-clockwise add up to one revolution. *)
Lemma clockwise_spans_complementary (o : IPoint) (spanF spanT : paths.IArcSpan) :
  measure.pointDistance o pointA = measure.pointDistance o pointB ->
  paths.arcSpan u (Some o) pointA pointB false = Ok spanF ->
  paths.arcSpan u (Some o) pointA pointB true = Ok spanT ->
  paths.span_size spanF + paths.span_size spanT = 360.
Proof.
  intros Hd SF ST.
  destruct intersection_two_facts as (Hab & _).
  assert (Hne : angle.ofPointInDegrees o pointA <> angle.ofPointInDegrees o pointB).
  { intros He. apply Hab. apply (ofPointInDegrees_inj o); assumption. }
  rewrite arcSpan_defined in SF, ST. injection SF as <-. injection ST as <-.
  cbn [paths.span_size].
  destruct (Rlt_dec _ _), (Rlt_dec _ _); lra.
Qed.

End SvgArcGeometry.

(** The arc about one candidate centre: all properties assigned, the centre
    at the radius from both endpoints, the angles in order, and the chord
    from the endpoint the arc starts at to the other one. *)
Lemma svg_arc_of_span (u : IPoint -> result R) (pointA pointB : IPoint) (radius : R)
      (clockwise : bool) (o : IPoint) (span : paths.IArcSpan) :
  paths.arcSpan u (Some o) pointA pointB clockwise = Ok span ->
  measure.pointDistance o pointA = radius ->
  measure.pointDistance o pointB = radius ->
  exists pathArc : IPathArc,
    asPathArc (paths.mkArcObject (paths.span_origin span) (Some radius)
                 (Some (paths.span_startAngle span)) (Some (paths.span_endAngle span))
                 pathType.Arc) = Some pathArc
    /\ arc_type pathArc = pathType.Arc
    /\ arc_origin pathArc = o
    /\ arc_radius pathArc = radius
    /\ arc_startAngle pathArc = paths.span_startAngle span
    /\ arc_endAngle pathArc = paths.span_endAngle span
    /\ 0 <= arc_startAngle pathArc < 360
    /\ arc_startAngle pathArc <= arc_endAngle pathArc < arc_startAngle pathArc + 360
    /\ paths.Chord pathArc
       = paths.mkChordObject pathType.Line
           (Some (if clockwise then pointB else pointA))
           (Some (if clockwise then pointA else pointB)).
Proof.
  intros S Ha Hb. rewrite arcSpan_defined in S. injection S as <-.
  cbn [paths.span_origin paths.span_startAngle paths.span_endAngle].
  eexists. split; [reflexivity|].
  cbn [arc_type arc_origin arc_radius arc_startAngle arc_endAngle].
  pose proof (ofPointInDegrees_range o (if clockwise then pointB else pointA)) as Hs.
  pose proof (ofPointInDegrees_range o (if clockwise then pointA else pointB)) as He.
  repeat split; try reflexivity; try lra.
  - destruct (Rlt_dec _ _); lra.
  - destruct (Rlt_dec _ _); lra.
  - apply Chord_of_angles.
    + destruct clockwise; assumption.
    + destruct clockwise; assumption.
    + destruct (Rlt_dec _ _); [right|left]; reflexivity.
Qed.

(** X5. SVG-style Arc whose circles meet in two points: the returned arc has
    all its properties assigned; its origin is one of the two intersection
    points, at the distance of the radius from both endpoints; its start
    angle is in [0, 360) and its end angle is at or above the start angle
    and less than one revolution above it; and its chord runs from the
    endpoint the arc starts at (A, or B when clockwise) to the other one. *)
Theorem Arc_svg_joins_endpoints
        (u : IPoint -> result R) (pointA pointB : IPoint) (radius : R)
        (largeArc clockwise : bool) (o0 o1 : IPoint) :
  path.intersection (mkCircle pathType.Circle pointA radius)
                    (mkCircle pathType.Circle pointB radius)
  = Some (mkIntersection [o0; o1]) ->
  exists (arc : paths.ArcObject) (pathArc : IPathArc),
    paths.Arc u (paths.ArcOfSvg pointA pointB radius largeArc clockwise) = Ok arc
    /\ asPathArc arc = Some pathArc
    /\ arc_type pathArc = pathType.Arc
    /\ arc_radius pathArc = radius
    /\ (arc_origin pathArc = o0 \/ arc_origin pathArc = o1)
    /\ measure.pointDistance (arc_origin pathArc) pointA = radius
    /\ measure.pointDistance (arc_origin pathArc) pointB = radius
    /\ 0 <= arc_startAngle pathArc < 360
    /\ arc_startAngle pathArc <= arc_endAngle pathArc < arc_startAngle pathArc + 360
    /\ paths.Chord pathArc
       = paths.mkChordObject pathType.Line
           (Some (if clockwise then pointB else pointA))
           (Some (if clockwise then pointA else pointB)).
Proof.
  intros Hi.
  destruct (intersection_two_facts _ _ _ _ _ Hi) as (Hab & Ho & H0a & H0b & H1a & H1b).
  destruct (paths.arcSpan u (Some o0) pointA pointB clockwise) as [span0|] eqn:S0;
    [|rewrite arcSpan_defined in S0; discriminate].
  destruct (paths.arcSpan u (Some o1) pointA pointB clockwise) as [span1|] eqn:S1;
    [|rewrite arcSpan_defined in S1; discriminate].
  destruct (svg_arc_of_span u _ _ _ _ _ _ S0 H0a H0b)
    as (arc0 & E0 & T0 & O0 & R0 & _ & _ & B0 & C0 & K0).
  destruct (svg_arc_of_span u _ _ _ _ _ _ S1 H1a H1b)
    as (arc1 & E1 & T1 & O1 & R1 & _ & _ & B1 & C1 & K1).
  rewrite (Arc_svg_two_candidates u _ _ _ _ _ Hi largeArc clockwise span0 span1 S0 S1).
  cbv zeta.
  assert (Q0 : arc_origin arc0 = o0 \/ arc_origin arc0 = o1) by (left; exact O0).
  assert (Q1 : arc_origin arc1 = o0 \/ arc_origin arc1 = o1) by (right; exact O1).
  rewrite <- O0 in H0a, H0b. rewrite <- O1 in H1a, H1b.
  destruct (Rgt_dec _ _), largeArc.
  - exists (paths.mkArcObject (paths.span_origin span0) (Some radius)
              (Some (paths.span_startAngle span0)) (Some (paths.span_endAngle span0))
              pathType.Arc), arc0. tauto.
  - exists (paths.mkArcObject (paths.span_origin span1) (Some radius)
              (Some (paths.span_startAngle span1)) (Some (paths.span_endAngle span1))
              pathType.Arc), arc1. tauto.
  - exists (paths.mkArcObject (paths.span_origin span1) (Some radius)
              (Some (paths.span_startAngle span1)) (Some (paths.span_endAngle span1))
              pathType.Arc), arc1. tauto.
  - exists (paths.mkArcObject (paths.span_origin span0) (Some radius)
              (Some (paths.span_startAngle span0)) (Some (paths.span_endAngle span0))
              pathType.Arc), arc0. tauto.
Qed.

Lemma Arc_svg_joins_endpoints_witness :
  exists (arc : paths.ArcObject) (pathArc : IPathArc),
    paths.Arc (fun _ => TypeError) (paths.ArcOfSvg (0, 0) (6, 0) 5 true false) = Ok arc
    /\ asPathArc arc = Some pathArc
    /\ arc_type pathArc = pathType.Arc
    /\ arc_radius pathArc = 5
    /\ (arc_origin pathArc = (3, 4) \/ arc_origin pathArc = (3, -4))
    /\ measure.pointDistance (arc_origin pathArc) (0, 0) = 5
    /\ measure.pointDistance (arc_origin pathArc) (6, 0) = 5
    /\ 0 <= arc_startAngle pathArc < 360
    /\ arc_startAngle pathArc <= arc_endAngle pathArc < arc_startAngle pathArc + 360
    /\ paths.Chord pathArc
       = paths.mkChordObject pathType.Line
           (Some (if false then (6, 0) else (0, 0)))
           (Some (if false then (0, 0) else (6, 0))).
Proof.
  exact (Arc_svg_joins_endpoints (fun _ => TypeError) (0, 0) (6, 0) 5 true false
           (3, 4) (3, -4) intersection_radius_5).
Defined.

(** X6. SVG-style Arc whose circles meet in two points, for a fixed
    clockwise flag: the arc returned for largeArc false and the arc returned
    for largeArc true are about the two different intersection points; the
    first spans less than 180 degrees, the second more, and the two spans
    add up to 360 degrees. *)
Theorem Arc_svg_largeArc_complementary
        (u : IPoint -> result R) (pointA pointB : IPoint) (radius : R)
        (clockwise : bool) (o0 o1 : IPoint) :
  path.intersection (mkCircle pathType.Circle pointA radius)
                    (mkCircle pathType.Circle pointB radius)
  = Some (mkIntersection [o0; o1]) ->
  exists (small large : paths.ArcObject) (smallArc largeArc : IPathArc),
    paths.Arc u (paths.ArcOfSvg pointA pointB radius false clockwise) = Ok small
    /\ paths.Arc u (paths.ArcOfSvg pointA pointB radius true clockwise) = Ok large
    /\ asPathArc small = Some smallArc
    /\ asPathArc large = Some largeArc
    /\ ((arc_origin smallArc = o0 /\ arc_origin largeArc = o1)
        \/ (arc_origin smallArc = o1 /\ arc_origin largeArc = o0))
    /\ arc_origin smallArc <> arc_origin largeArc
    /\ arc_endAngle smallArc - arc_startAngle smallArc < 180
    /\ 180 < arc_endAngle largeArc - arc_startAngle largeArc
    /\ (arc_endAngle smallArc - arc_startAngle smallArc)
       + (arc_endAngle largeArc - arc_startAngle largeArc) = 360.
Proof.
  intros Hi.
  destruct (intersection_two_facts _ _ _ _ _ Hi) as (Hab & Ho & H0a & H0b & H1a & H1b).
  destruct (paths.arcSpan u (Some o0) pointA pointB clockwise) as [span0|] eqn:S0;
    [|rewrite arcSpan_defined in S0; discriminate].
  destruct (paths.arcSpan u (Some o1) pointA pointB clockwise) as [span1|] eqn:S1;
    [|rewrite arcSpan_defined in S1; discriminate].
  destruct (mirror_spans_distinct u _ _ _ _ _ Hi clockwise span0 span1 S0 S1)
    as [Hsum Hne].
  destruct (arcSpan_fields _ _ _ _ _ _ S0) as (_ & _ & _ & Z0 & _).
  destruct (arcSpan_fields _ _ _ _ _ _ S1) as (_ & _ & _ & Z1 & _).
  destruct (svg_arc_of_span u _ _ _ _ _ _ S0 H0a H0b)
    as (arc0 & E0 & _ & O0 & _ & A0 & B0 & _).
  destruct (svg_arc_of_span u _ _ _ _ _ _ S1 H1a H1b)
    as (arc1 & E1 & _ & O1 & _ & A1 & B1 & _).
  rewrite !(Arc_svg_two_candidates u _ _ _ _ _ Hi _ clockwise span0 span1 S0 S1).
  cbv zeta.
  destruct (Rgt_dec (paths.span_size span0) (paths.span_size span1)) as [Hgt|Hle].
  - do 2 eexists. exists arc1, arc0.
    split; [reflexivity|]. split; [reflexivity|].
    split; [exact E1|]. split; [exact E0|].
    rewrite O0, O1, A0, A1, B0, B1.
    split; [right; split; reflexivity|].
    split; [congruence|]. lra.
  - do 2 eexists. exists arc0, arc1.
    split; [reflexivity|]. split; [reflexivity|].
    split; [exact E0|]. split; [exact E1|].
    rewrite O0, O1, A0, A1, B0, B1.
    split; [left; split; reflexivity|].
    split; [exact Ho|]. lra.
Qed.

Lemma Arc_svg_largeArc_complementary_witness :
  exists (small large : paths.ArcObject) (smallArc largeArc : IPathArc),
    paths.Arc (fun _ => TypeError) (paths.ArcOfSvg (0, 0) (6, 0) 5 false false) = Ok small
    /\ paths.Arc (fun _ => TypeError) (paths.ArcOfSvg (0, 0) (6, 0) 5 true false) = Ok large
    /\ asPathArc small = Some smallArc
    /\ asPathArc large = Some largeArc
    /\ ((arc_origin smallArc = (3, 4) /\ arc_origin largeArc = (3, -4))
        \/ (arc_origin smallArc = (3, -4) /\ arc_origin largeArc = (3, 4)))
    /\ arc_origin smallArc <> arc_origin largeArc
    /\ arc_endAngle smallArc - arc_startAngle smallArc < 180
    /\ 180 < arc_endAngle largeArc - arc_startAngle largeArc
    /\ (arc_endAngle smallArc - arc_startAngle smallArc)
       + (arc_endAngle largeArc - arc_startAngle largeArc) = 360.
Proof.
  exact (Arc_svg_largeArc_complementary (fun _ => TypeError) (0, 0) (6, 0) 5 false
           (3, 4) (3, -4) intersection_radius_5).
Defined.

(** The two arcs about one candidate centre, counter-clockwise and
    clockwise: their chords are each other's reverse, each starts at the
    angle the other ends at (up to one revolution), and their spans add up
    to one revolution. *)
Lemma svg_arcs_about_one_centre (u : IPoint -> result R) (pointA pointB : IPoint)
      (radius : R) (o : IPoint) (spanF spanT : paths.IArcSpan) :
  pointA <> pointB ->
  paths.arcSpan u (Some o) pointA pointB false = Ok spanF ->
  paths.arcSpan u (Some o) pointA pointB true = Ok spanT ->
  measure.pointDistance o pointA = radius ->
  measure.pointDistance o pointB = radius ->
  exists arcF arcT : IPathArc,
    asPathArc (paths.mkArcObject (paths.span_origin spanF) (Some radius)
                 (Some (paths.span_startAngle spanF)) (Some (paths.span_endAngle spanF))
                 pathType.Arc) = Some arcF
    /\ asPathArc (paths.mkArcObject (paths.span_origin spanT) (Some radius)
                    (Some (paths.span_startAngle spanT)) (Some (paths.span_endAngle spanT))
                    pathType.Arc) = Some arcT
    /\ arc_origin arcF = o /\ arc_origin arcT = o
    /\ paths.Chord arcF = paths.mkChordObject pathType.Line (Some pointA) (Some pointB)
    /\ paths.Chord arcT = paths.mkChordObject pathType.Line (Some pointB) (Some pointA)
    /\ arc_startAngle arcF = angle.ofPointInDegrees o pointA
    /\ arc_startAngle arcT = angle.ofPointInDegrees o pointB
    /\ (arc_endAngle arcF = arc_startAngle arcT
        \/ arc_endAngle arcF = arc_startAngle arcT + 360)
    /\ (arc_endAngle arcT = arc_startAngle arcF
        \/ arc_endAngle arcT = arc_startAngle arcF + 360)
    /\ (arc_endAngle arcF - arc_startAngle arcF)
       + (arc_endAngle arcT - arc_startAngle arcT) = 360.
Proof.
  intros Hab SF ST Ha Hb.
  destruct (svg_arc_of_span u _ _ _ _ _ _ SF Ha Hb)
    as (arcF & EF & _ & OF & _ & AF & BF & _ & _ & KF).
  destruct (svg_arc_of_span u _ _ _ _ _ _ ST Ha Hb)
    as (arcT & ET & _ & OT & _ & AT & BT & _ & _ & KT).
  assert (Hne : angle.ofPointInDegrees o pointA <> angle.ofPointInDegrees o pointB).
  { intros He. apply Hab. apply (ofPointInDegrees_inj o); congruence. }
  destruct (arcSpan_fields u pointA pointB false o spanF SF) as (_ & sF & eF & _).
  destruct (arcSpan_fields u pointA pointB true o spanT ST) as (_ & sT & eT & _).
  cbv iota in sF, eF, sT, eT.
  exists arcF, arcT.
  split; [exact EF|]. split; [exact ET|]. split; [exact OF|]. split; [exact OT|].
  split; [exact KF|]. split; [exact KT|].
  rewrite AF, AT, BF, BT, sF, sT, eF, eT. clear eF eT.
  split; [reflexivity|]. split; [reflexivity|].
  split; [destruct (Rlt_dec _ _); [right|left]; reflexivity|].
  split; [destruct (Rlt_dec _ _); [right|left]; reflexivity|].
  destruct (Rlt_dec _ _), (Rlt_dec _ _); lra.
Qed.

(** X7. SVG-style Arc whose circles meet in two points: with largeArc kept,
    flipping the clockwise flag moves the arc to the other intersection
    point; flipping both flags keeps the centre and exchanges start and end:
    the chord of the one arc is the reversed chord of the other, each starts
    at the angle the other ends at (up to one revolution), and the two spans
    add up to one revolution, so the one is the rest of the circle of the
    other. *)
Theorem Arc_svg_clockwise_other_centre
        (u : IPoint -> result R) (pointA pointB : IPoint) (radius : R)
        (largeArc clockwise : bool) (o0 o1 : IPoint) :
  path.intersection (mkCircle pathType.Circle pointA radius)
                    (mkCircle pathType.Circle pointB radius)
  = Some (mkIntersection [o0; o1]) ->
  exists (arc flipped both : paths.ArcObject) (pathArc pathBoth : IPathArc),
    paths.Arc u (paths.ArcOfSvg pointA pointB radius largeArc clockwise) = Ok arc
    /\ paths.Arc u (paths.ArcOfSvg pointA pointB radius largeArc (negb clockwise))
       = Ok flipped
    /\ paths.Arc u (paths.ArcOfSvg pointA pointB radius (negb largeArc) (negb clockwise))
       = Ok both
    /\ ((paths.origin arc = Some o0 /\ paths.origin flipped = Some o1)
        \/ (paths.origin arc = Some o1 /\ paths.origin flipped = Some o0))
    /\ paths.origin arc <> paths.origin flipped
    /\ paths.origin both = paths.origin arc
    /\ asPathArc arc = Some pathArc
    /\ asPathArc both = Some pathBoth
    /\ arc_origin pathBoth = arc_origin pathArc
    /\ paths.Chord pathArc
       = paths.mkChordObject pathType.Line
           (Some (if clockwise then pointB else pointA))
           (Some (if clockwise then pointA else pointB))
    /\ paths.Chord pathBoth
       = paths.mkChordObject pathType.Line
           (Some (if clockwise then pointA else pointB))
           (Some (if clockwise then pointB else pointA))
    /\ arc_startAngle pathArc
       = angle.ofPointInDegrees (arc_origin pathArc) (if clockwise then pointB else pointA)
    /\ arc_startAngle pathBoth
       = angle.ofPointInDegrees (arc_origin pathArc) (if clockwise then pointA else pointB)
    /\ (arc_endAngle pathArc = arc_startAngle pathBoth
        \/ arc_endAngle pathArc = arc_startAngle pathBoth + 360)
    /\ (arc_endAngle pathBoth = arc_startAngle pathArc
        \/ arc_endAngle pathBoth = arc_startAngle pathArc + 360)
    /\ (arc_endAngle pathArc - arc_startAngle pathArc)
       + (arc_endAngle pathBoth - arc_startAngle pathBoth) = 360.
Proof.
  intros Hi.
  destruct (intersection_two_facts _ _ _ _ _ Hi) as (Hab & Ho & H0a & H0b & H1a & H1b).
  destruct (paths.arcSpan u (Some o0) pointA pointB false) as [f0|] eqn:F0;
    [|rewrite arcSpan_defined in F0; discriminate].
  destruct (paths.arcSpan u (Some o1) pointA pointB false) as [f1|] eqn:F1;
    [|rewrite arcSpan_defined in F1; discriminate].
  destruct (paths.arcSpan u (Some o0) pointA pointB true) as [t0|] eqn:T0;
    [|rewrite arcSpan_defined in T0; discriminate].
  destruct (paths.arcSpan u (Some o1) pointA pointB true) as [t1|] eqn:T1;
    [|rewrite arcSpan_defined in T1; discriminate].
  destruct (mirror_spans_distinct u _ _ _ _ _ Hi false f0 f1 F0 F1) as [HsumF HneF].
  destruct (mirror_spans_distinct u _ _ _ _ _ Hi true t0 t1 T0 T1) as [HsumT HneT].
  pose proof (clockwise_spans_complementary u _ _ _ _ _ Hi o0 f0 t0
                ltac:(congruence) F0 T0) as Hc0.
  pose proof (clockwise_spans_complementary u _ _ _ _ _ Hi o1 f1 t1
                ltac:(congruence) F1 T1) as Hc1.
  destruct (arcSpan_fields _ _ _ _ _ _ F0) as (OF0 & _).
  destruct (arcSpan_fields _ _ _ _ _ _ F1) as (OF1 & _).
  destruct (arcSpan_fields _ _ _ _ _ _ T0) as (OT0 & _).
  destruct (arcSpan_fields _ _ _ _ _ _ T1) as (OT1 & _).
  destruct (svg_arcs_about_one_centre u pointA pointB radius o0 f0 t0 Hab F0 T0 H0a H0b)
    as (aF0 & aT0 & EF0 & ET0 & CF0 & CT0 & KF0 & KT0 & SF0 & ST0 & XF0 & XT0 & Z0).
  destruct (svg_arcs_about_one_centre u pointA pointB radius o1 f1 t1 Hab F1 T1 H1a H1b)
    as (aF1 & aT1 & EF1 & ET1 & CF1 & CT1 & KF1 & KT1 & SF1 & ST1 & XF1 & XT1 & Z1).
  rewrite <- CF0 in SF0. rewrite <- CT0 in ST0.
  rewrite <- CF1 in SF1. rewrite <- CT1 in ST1.
  assert (Hsome : Some o0 <> Some o1) by congruence.
  assert (Hsome' : Some o1 <> Some o0) by congruence.
  pose proof (fun la => Arc_svg_two_candidates u _ _ _ _ _ Hi la false f0 f1 F0 F1) as AF.
  pose proof (fun la => Arc_svg_two_candidates u _ _ _ _ _ Hi la true t0 t1 T0 T1) as AT.
  cbv zeta in AF, AT.
  destruct clockwise; cbn [negb]; rewrite !AF, !AT;
    destruct (Rgt_dec (paths.span_size f0) (paths.span_size f1));
    destruct (Rgt_dec (paths.span_size t0) (paths.span_size t1));
    try (exfalso; lra);
    destruct largeArc; cbn [negb];
    do 5 eexists;
    (split; [reflexivity|]); (split; [reflexivity|]); (split; [reflexivity|]);
    (split; [cbn [paths.origin]; rewrite ?OF0, ?OF1, ?OT0, ?OT1; tauto|]);
    (split; [cbn [paths.origin]; rewrite ?OF0, ?OF1, ?OT0, ?OT1; tauto|]);
    (split; [cbn [paths.origin]; rewrite ?OF0, ?OF1, ?OT0, ?OT1; reflexivity|]);
    (split; [eassumption|]); (split; [eassumption|]);
    repeat split; solve [assumption | congruence | lra].
Qed.

Lemma Arc_svg_clockwise_other_centre_witness :
  exists (arc flipped both : paths.ArcObject) (pathArc pathBoth : IPathArc),
    paths.Arc (fun _ => TypeError) (paths.ArcOfSvg (0, 0) (6, 0) 5 false false) = Ok arc
    /\ paths.Arc (fun _ => TypeError) (paths.ArcOfSvg (0, 0) (6, 0) 5 false (negb false))
       = Ok flipped
    /\ paths.Arc (fun _ => TypeError)
         (paths.ArcOfSvg (0, 0) (6, 0) 5 (negb false) (negb false))
       = Ok both
    /\ ((paths.origin arc = Some (3, 4) /\ paths.origin flipped = Some (3, -4))
        \/ (paths.origin arc = Some (3, -4) /\ paths.origin flipped = Some (3, 4)))
    /\ paths.origin arc <> paths.origin flipped
    /\ paths.origin both = paths.origin arc
    /\ asPathArc arc = Some pathArc
    /\ asPathArc both = Some pathBoth
    /\ arc_origin pathBoth = arc_origin pathArc
    /\ paths.Chord pathArc
       = paths.mkChordObject pathType.Line
           (Some (if false then (6, 0) else (0, 0)))
           (Some (if false then (0, 0) else (6, 0)))
    /\ paths.Chord pathBoth
       = paths.mkChordObject pathType.Line
           (Some (if false then (0, 0) else (6, 0)))
           (Some (if false then (6, 0) else (0, 0)))
    /\ arc_startAngle pathArc
       = angle.ofPointInDegrees (arc_origin pathArc) (if false then (6, 0) else (0, 0))
    /\ arc_startAngle pathBoth
       = angle.ofPointInDegrees (arc_origin pathArc) (if false then (0, 0) else (6, 0))
    /\ (arc_endAngle pathArc = arc_startAngle pathBoth
        \/ arc_endAngle pathArc = arc_startAngle pathBoth + 360)
    /\ (arc_endAngle pathBoth = arc_startAngle pathArc
        \/ arc_endAngle pathBoth = arc_startAngle pathArc + 360)
    /\ (arc_endAngle pathArc - arc_startAngle pathArc)
       + (arc_endAngle pathBoth - arc_startAngle pathBoth) = 360.
Proof.
  exact (Arc_svg_clockwise_other_centre (fun _ => TypeError) (0, 0) (6, 0) 5 false false
           (3, 4) (3, -4) intersection_radius_5).
Defined.

(** ** The three-point Arc and its circle *)

(** X8. Arc from three points that are not collinear: the returned arc has
    all its properties assigned, its three points are at the distance of its
    radius from its origin, and its chord joins A and C, from A to C or,
    when start and end were swapped, from C to A. *)
Theorem Arc_3points_joins_endpoints
        (u : IPoint -> result R) (pointA pointB pointC : IPoint) :
  ~ collinear pointA pointB pointC ->
  exists (arc : paths.ArcObject) (pathArc : IPathArc),
    paths.Arc u (paths.ArcOf3Points pointA pointB pointC) = Ok arc
    /\ asPathArc arc = Some pathArc
    /\ arc_type pathArc = pathType.Arc
    /\ measure.pointDistance (arc_origin pathArc) pointA = arc_radius pathArc
    /\ measure.pointDistance (arc_origin pathArc) pointB = arc_radius pathArc
    /\ measure.pointDistance (arc_origin pathArc) pointC = arc_radius pathArc
    /\ (paths.Chord pathArc
        = paths.mkChordObject pathType.Line (Some pointA) (Some pointC)
        \/ paths.Chord pathArc
           = paths.mkChordObject pathType.Line (Some pointC) (Some pointA)).
Proof.
  intros Hnc.
  destruct (fromSlopeIntersection_perpendiculars pointA pointB pointC Hnc)
    as (o & Ho & Hab & Hbc).
  unfold paths.Arc. rewrite (Circle_3points_defined _ _ _ _ Ho).
  cbn [bind circle_origin circle_radius circle_type].
  destruct (negb _); do 2 eexists;
    (split; [reflexivity|]); (split; [reflexivity|]);
    cbn [arc_type arc_origin arc_radius];
    (split; [reflexivity|]); (split; [reflexivity|]);
    (split; [congruence|]); (split; [congruence|]).
  - right. apply Chord_of_angles; [congruence | reflexivity | left; reflexivity].
  - left. apply Chord_of_angles; [reflexivity | congruence | left; reflexivity].
Qed.

Lemma Arc_3points_joins_endpoints_witness :
  exists (arc : paths.ArcObject) (pathArc : IPathArc),
    paths.Arc (fun _ => TypeError) (paths.ArcOf3Points (0, 0) (2, 0) (0, 2)) = Ok arc
    /\ asPathArc arc = Some pathArc
    /\ arc_type pathArc = pathType.Arc
    /\ measure.pointDistance (arc_origin pathArc) (0, 0) = arc_radius pathArc
    /\ measure.pointDistance (arc_origin pathArc) (2, 0) = arc_radius pathArc
    /\ measure.pointDistance (arc_origin pathArc) (0, 2) = arc_radius pathArc
    /\ (paths.Chord pathArc
        = paths.mkChordObject pathType.Line (Some (0, 0)) (Some (0, 2))
        \/ paths.Chord pathArc
           = paths.mkChordObject pathType.Line (Some (0, 2)) (Some (0, 0))).
Proof.
  exact (Arc_3points_joins_endpoints (fun _ => TypeError) (0, 0) (2, 0) (0, 2)
           not_collinear_example).
Defined.

(** A point at one distance from three points that are not collinear is
    their only such point. *)
Lemma circumcentre_unique (a b c o o' : IPoint) :
  ~ collinear a b c ->
  measure.pointDistance o a = measure.pointDistance o b ->
  measure.pointDistance o b = measure.pointDistance o c ->
  measure.pointDistance o' a = measure.pointDistance o' b ->
  measure.pointDistance o' b = measure.pointDistance o' c ->
  o = o'.
Proof.
  unfold collinear, cross3. intros Hnc Hab Hbc Hab' Hbc'.
  pose proof (pointDistance_sqr o a) as Sa. pose proof (pointDistance_sqr o b) as Sb.
  pose proof (pointDistance_sqr o c) as Sc.
  pose proof (pointDistance_sqr o' a) as Sa'. pose proof (pointDistance_sqr o' b) as Sb'.
  pose proof (pointDistance_sqr o' c) as Sc'.
  rewrite Hab in Sa. rewrite <- Hbc in Sc. rewrite Hab' in Sa'. rewrite <- Hbc' in Sc'.
  destruct a as [ax ay], b as [bx by_], c as [cx cy], o as [x y], o' as [x' y'].
  cbn [fst snd] in *.
  set (ux := bx - ax) in *. set (uy := by_ - ay) in *.
  set (vx := cx - bx) in *. set (vy := cy - by_) in *.
  (* the difference of the two centres is orthogonal to both chords *)
  assert (E1 : (x - x') * ux + (y - y') * uy = 0).
  { unfold ux, uy. clear - Sa Sb Sa' Sb'. lra. }
  assert (E2 : (x - x') * vx + (y - y') * vy = 0).
  { unfold vx, vy. clear - Sb Sc Sb' Sc'. lra. }
  assert (Hx : (x - x') * (ux * vy - uy * vx) = 0).
  { replace ((x - x') * (ux * vy - uy * vx))
      with (((x - x') * ux + (y - y') * uy) * vy - ((x - x') * vx + (y - y') * vy) * uy)
      by ring.
    rewrite E1, E2. ring. }
  assert (Hy : (y - y') * (ux * vy - uy * vx) = 0).
  { replace ((y - y') * (ux * vy - uy * vx))
      with (((x - x') * vx + (y - y') * vy) * ux - ((x - x') * ux + (y - y') * uy) * vx)
      by ring.
    rewrite E1, E2. ring. }
  apply Rmult_integral in Hx, Hy.
  destruct Hx as [Hx|Hx]; [|contradiction]. destruct Hy as [Hy|Hy]; [|contradiction].
  f_equal; lra.
Qed.

(** X9. Three points on a circle, not collinear: the three-point Circle
    constructor returns that circle, centre and radius. *)
Theorem Circle_3points_recovers_circle (origin pointA pointB pointC : IPoint) (radius : R) :
  ~ collinear pointA pointB pointC ->
  measure.pointDistance origin pointA = radius ->
  measure.pointDistance origin pointB = radius ->
  measure.pointDistance origin pointC = radius ->
  paths.Circle (paths.CircleOf3Points pointA pointB pointC)
  = Ok (mkCircle pathType.Circle origin radius).
Proof.
  intros Hnc Ha Hb Hc.
  destruct (fromSlopeIntersection_perpendiculars pointA pointB pointC Hnc)
    as (o & Ho & Hab & Hbc).
  rewrite (Circle_3points_defined _ _ _ _ Ho).
  assert (He : o = origin).
  { apply (circumcentre_unique pointA pointB pointC); try assumption; congruence. }
  rewrite He, Ha. reflexivity.
Qed.

Lemma Circle_3points_recovers_circle_witness :
  paths.Circle (paths.CircleOf3Points (0, 0) (2, 0) (0, 2))
  = Ok (mkCircle pathType.Circle (1, 1) (sqrt 2)).
Proof.
  apply (Circle_3points_recovers_circle (1, 1) (0, 0) (2, 0) (0, 2) (sqrt 2)
           not_collinear_example);
    unfold measure.pointDistance; cbn [fst snd]; f_equal; ring.
Defined.

Lemma cross3_cycle (a b c : IPoint) : cross3 b c a = cross3 a b c.
Proof. unfold cross3. ring. Qed.

Lemma cross3_swap (a b c : IPoint) : cross3 b a c = - cross3 a b c.
Proof. unfold cross3. ring. Qed.

(** X10. Three points that are not collinear: the three-point Circle
    constructor returns the same circle for all six orders of the points. *)
Theorem Circle_3points_order_irrelevant (pointA pointB pointC : IPoint) :
  ~ collinear pointA pointB pointC ->
  exists circle : IPathCircle,
    paths.Circle (paths.CircleOf3Points pointA pointB pointC) = Ok circle
    /\ paths.Circle (paths.CircleOf3Points pointB pointC pointA) = Ok circle
    /\ paths.Circle (paths.CircleOf3Points pointC pointA pointB) = Ok circle
    /\ paths.Circle (paths.CircleOf3Points pointA pointC pointB) = Ok circle
    /\ paths.Circle (paths.CircleOf3Points pointC pointB pointA) = Ok circle
    /\ paths.Circle (paths.CircleOf3Points pointB pointA pointC) = Ok circle.
Proof.
  intros Hnc.
  destruct (fromSlopeIntersection_perpendiculars pointA pointB pointC Hnc)
    as (o & Ho & Hab & Hbc).
  exists (mkCircle pathType.Circle o (measure.pointDistance o pointA)).
  assert (Hany : forall a b c : IPoint,
             ~ collinear a b c ->
             measure.pointDistance o a = measure.pointDistance o pointA ->
             measure.pointDistance o b = measure.pointDistance o pointA ->
             measure.pointDistance o c = measure.pointDistance o pointA ->
             paths.Circle (paths.CircleOf3Points a b c)
             = Ok (mkCircle pathType.Circle o (measure.pointDistance o pointA))).
  { intros a b c Habc Da Db Dc.
    destruct (fromSlopeIntersection_perpendiculars a b c Habc) as (o' & Ho' & Hab' & Hbc').
    rewrite (Circle_3points_defined _ _ _ _ Ho').
    assert (He : o' = o)
      by (apply (circumcentre_unique a b c); try assumption; congruence).
    rewrite He, Da. reflexivity. }
  assert (Hcyc : ~ collinear pointB pointC pointA).
  { unfold collinear. rewrite cross3_cycle. exact Hnc. }
  assert (Hcyc' : ~ collinear pointC pointA pointB).
  { unfold collinear. rewrite cross3_cycle. exact Hcyc. }
  assert (Hswap : forall a b c, ~ collinear a b c -> ~ collinear b a c).
  { unfold collinear. intros a b c H. rewrite cross3_swap. lra. }
  repeat split.
  - apply Hany; [exact Hnc | reflexivity | congruence | congruence].
  - apply Hany; [exact Hcyc | congruence | congruence | reflexivity].
  - apply Hany; [exact Hcyc' | congruence | reflexivity | congruence].
  - apply Hany; [apply Hswap, Hcyc' | reflexivity | congruence | congruence].
  - apply Hany; [apply Hswap, Hcyc | congruence | congruence | reflexivity].
  - apply Hany; [apply Hswap, Hnc | congruence | reflexivity | congruence].
Qed.

Lemma Circle_3points_order_irrelevant_witness :
  exists circle : IPathCircle,
    paths.Circle (paths.CircleOf3Points (0, 0) (2, 0) (0, 2)) = Ok circle
    /\ paths.Circle (paths.CircleOf3Points (2, 0) (0, 2) (0, 0)) = Ok circle
    /\ paths.Circle (paths.CircleOf3Points (0, 2) (0, 0) (2, 0)) = Ok circle
    /\ paths.Circle (paths.CircleOf3Points (0, 0) (0, 2) (2, 0)) = Ok circle
    /\ paths.Circle (paths.CircleOf3Points (0, 2) (2, 0) (0, 0)) = Ok circle
    /\ paths.Circle (paths.CircleOf3Points (2, 0) (0, 0) (0, 2)) = Ok circle.
Proof.
  exact (Circle_3points_order_irrelevant (0, 0) (2, 0) (0, 2) not_collinear_example).
Defined.

(** ** More on Parallel *)

(** The angle of a point from an origin depends on the vector between them
    only. *)
Lemma ofPointInDegrees_translate (o p o' p' : IPoint) :
  fst p' - fst o' = fst p - fst o ->
  snd p' - snd o' = snd p - snd o ->
  angle.ofPointInDegrees o' p' = angle.ofPointInDegrees o p.
Proof.
  intros Hx Hy. unfold angle.ofPointInDegrees, angle.ofPointInRadians. cbv zeta.
  rewrite Hx, Hy. reflexivity.
Qed.

Lemma toRadians_plus (a b : R) :
  angle.toRadians (a + b) = angle.toRadians a + angle.toRadians b.
Proof. unfold angle.toRadians. field. Qed.

Lemma toRadians_neg_90 : angle.toRadians (-90) = - (PI / 2).
Proof. unfold angle.toRadians. field. Qed.

(** X11. A Parallel has the angle and the length of the source line, and the
    offset from the origin of the source line to its own origin is
    perpendicular to the source line. *)
Theorem Parallel_keeps_direction (toLine : IPathLine) (distance : R) (nearPoint : IPoint) :
  angle.ofLineInDegrees (paths.Parallel toLine distance nearPoint)
  = angle.ofLineInDegrees toLine
  /\ measure.pointDistance (line_origin (paths.Parallel toLine distance nearPoint))
                           (line_end (paths.Parallel toLine distance nearPoint))
     = measure.pointDistance (line_origin toLine) (line_end toLine)
  /\ dotProduct (line_origin toLine)
                (line_origin (paths.Parallel toLine distance nearPoint))
                (line_origin toLine) (line_end toLine)
     = 0.
Proof.
  assert (Hvec : fst (line_end (paths.Parallel toLine distance nearPoint))
                 - fst (line_origin (paths.Parallel toLine distance nearPoint))
                 = fst (line_end toLine) - fst (line_origin toLine)
                 /\ snd (line_end (paths.Parallel toLine distance nearPoint))
                    - snd (line_origin (paths.Parallel toLine distance nearPoint))
                    = snd (line_end toLine) - snd (line_origin toLine)).
  { rewrite Parallel_unfold at 1 3.
    unfold path.move, point.add, point.subtract, point.clone.
    cbn [line_origin line_end fst snd]. split; ring. }
  destruct Hvec as [Hx Hy].
  split; [|split].
  - unfold angle.ofLineInDegrees. apply ofPointInDegrees_translate; assumption.
  - apply pointDistance_eq_of_sqr. rewrite Hx, Hy. reflexivity.
  - rewrite Parallel_origin.
    unfold paths.selectNewOrigin, paths.getNewOrigin, dotProduct.
    cbn [paths.nearness paths.newOrigin_origin].
    destruct (ofPointInDegrees_polar (line_origin toLine) (line_end toLine)) as [Px Py].
    fold (angle.ofLineInDegrees toLine) in Px, Py.
    set (t := angle.toRadians (angle.ofLineInDegrees toLine)) in *.
    set (len := measure.pointDistance (line_origin toLine) (line_end toLine)) in *.
    rewrite Px, Py.
    destruct (Rlt_dec _ _); unfold point.add, point.fromPolar; cbn [fst snd];
      rewrite toRadians_plus; fold t.
    + rewrite toRadians_neg_90.
      replace (t + - (PI / 2)) with (t - PI / 2) by ring.
      rewrite cos_minus, sin_minus, cos_PI2, sin_PI2. ring.
    + rewrite toRadians_90, cos_plus, sin_plus, cos_PI2, sin_PI2. ring.
Qed.

(** X12. At distance 0 the Parallel is a copy of the source line, tagged as
    a line, whatever the near point. *)
Theorem Parallel_distance_zero (toLine : IPathLine) (nearPoint : IPoint) :
  paths.Parallel toLine 0 nearPoint
  = mkLine pathType.Line (line_origin toLine) (line_end toLine).
Proof.
  rewrite Parallel_unfold, Parallel_origin.
  unfold paths.selectNewOrigin, paths.getNewOrigin.
  cbn [paths.nearness paths.newOrigin_origin].
  unfold path.move, point.add, point.subtract, point.clone, point.fromPolar.
  cbn [line_type line_origin line_end fst snd].
  destruct (line_origin toLine) as [ox oy], (line_end toLine) as [ex ey].
  cbn [fst snd].
  destruct (Rlt_dec _ _); do 2 f_equal; cbn [fst snd]; ring.
Qed.

(** The candidate at -90 degrees for [- distance] is the candidate at +90
    degrees for [distance], and the other way round. *)
Lemma getNewOrigin_opposite_distance (toLine : IPathLine) (distance : R)
      (nearPoint : IPoint) (angleOfLine : R) :
  paths.getNewOrigin toLine (- distance) nearPoint angleOfLine (-90)
  = paths.getNewOrigin toLine distance nearPoint angleOfLine 90
  /\ paths.getNewOrigin toLine (- distance) nearPoint angleOfLine 90
     = paths.getNewOrigin toLine distance nearPoint angleOfLine (-90).
Proof.
  assert (Hturn : angle.toRadians (angleOfLine + 90)
                  = angle.toRadians (angleOfLine + -90) + PI)
    by (unfold angle.toRadians; field).
  assert (Hpoint : point.fromPolar (angle.toRadians (angleOfLine + 90)) distance
                   = point.fromPolar (angle.toRadians (angleOfLine + -90)) (- distance)).
  { unfold point.fromPolar. rewrite Hturn, neg_cos, neg_sin. f_equal; ring. }
  assert (Hpoint' : point.fromPolar (angle.toRadians (angleOfLine + 90)) (- distance)
                    = point.fromPolar (angle.toRadians (angleOfLine + -90)) distance).
  { unfold point.fromPolar. rewrite Hturn, neg_cos, neg_sin. f_equal; ring. }
  unfold paths.getNewOrigin. rewrite Hpoint, Hpoint'. split; reflexivity.
Qed.

(** X13. The sign of [distance] does not choose the side of a Parallel: when
    one of the two candidate origins is strictly nearer to the near point,
    [- distance] and [distance] give the same line.  On a tie they give the
    two different candidates. *)
Theorem Parallel_distance_sign (toLine : IPathLine) (distance : R) (nearPoint : IPoint) :
  let first :=
    paths.getNewOrigin toLine distance nearPoint (angle.ofLineInDegrees toLine) (-90) in
  let second :=
    paths.getNewOrigin toLine distance nearPoint (angle.ofLineInDegrees toLine) 90 in
  (paths.nearness first <> paths.nearness second ->
   paths.Parallel toLine (- distance) nearPoint = paths.Parallel toLine distance nearPoint)
  /\ (paths.nearness first = paths.nearness second ->
      line_origin (paths.Parallel toLine distance nearPoint)
      = paths.newOrigin_origin second
      /\ line_origin (paths.Parallel toLine (- distance) nearPoint)
         = paths.newOrigin_origin first).
Proof.
  intros first second.
  destruct (getNewOrigin_opposite_distance toLine distance nearPoint
              (angle.ofLineInDegrees toLine)) as [H0 H1].
  assert (Hneg : line_origin (paths.Parallel toLine (- distance) nearPoint)
                 = paths.selectNewOrigin second first).
  { rewrite Parallel_origin, H0, H1. reflexivity. }
  assert (Hpos : line_origin (paths.Parallel toLine distance nearPoint)
                 = paths.selectNewOrigin first second)
    by apply Parallel_origin.
  split.
  - intros Hne.
    rewrite (Parallel_unfold toLine (- distance)), (Parallel_unfold toLine distance).
    rewrite Hneg, Hpos. unfold paths.selectNewOrigin.
    destruct (Rlt_dec (paths.nearness second) (paths.nearness first)),
             (Rlt_dec (paths.nearness first) (paths.nearness second));
      try reflexivity; exfalso; lra.
  - intros Heq. rewrite Hneg, Hpos. unfold paths.selectNewOrigin.
    destruct (Rlt_dec (paths.nearness second) (paths.nearness first)),
             (Rlt_dec (paths.nearness first) (paths.nearness second));
      try (exfalso; lra). split; reflexivity.
Qed.

Lemma Parallel_distance_sign_witness :
  let toLine := paths.Line (0, 0) (10, 0) in
  (paths.nearness (paths.getNewOrigin toLine 2 (0, 5) (angle.ofLineInDegrees toLine) (-90))
   <> paths.nearness (paths.getNewOrigin toLine 2 (0, 5) (angle.ofLineInDegrees toLine) 90)
   /\ paths.Parallel toLine (- 2) (0, 5) = paths.Parallel toLine 2 (0, 5))
  /\ (paths.nearness (paths.getNewOrigin toLine 2 (0, 0) (angle.ofLineInDegrees toLine) (-90))
      = paths.nearness (paths.getNewOrigin toLine 2 (0, 0) (angle.ofLineInDegrees toLine) 90)
      /\ line_origin (paths.Parallel toLine 2 (0, 0))
         = paths.newOrigin_origin
             (paths.getNewOrigin toLine 2 (0, 0) (angle.ofLineInDegrees toLine) 90)
      /\ line_origin (paths.Parallel toLine (- 2) (0, 0))
         = paths.newOrigin_origin
             (paths.getNewOrigin toLine 2 (0, 0) (angle.ofLineInDegrees toLine) (-90))).
Proof.
  intros toLine.
  destruct Parallel_candidates_example as [H1 H2].
  assert (Hne : paths.nearness
                  (paths.getNewOrigin toLine 2 (0, 5) (angle.ofLineInDegrees toLine) (-90))
                <> paths.nearness
                     (paths.getNewOrigin toLine 2 (0, 5) (angle.ofLineInDegrees toLine) 90)).
  { unfold paths.getNewOrigin, toLine. cbn [paths.nearness paths.Line line_origin].
    rewrite H1, H2. rewrite !pointDistance_vertical by lra. lra. }
  assert (Heq : paths.nearness
                  (paths.getNewOrigin toLine 2 (0, 0) (angle.ofLineInDegrees toLine) (-90))
                = paths.nearness
                    (paths.getNewOrigin toLine 2 (0, 0) (angle.ofLineInDegrees toLine) 90)).
  { unfold paths.getNewOrigin, toLine. cbn [paths.nearness paths.Line line_origin].
    rewrite H1, H2, (pointDistance_sym (0, 2)).
    rewrite !pointDistance_vertical by lra. lra. }
  split.
  - split; [exact Hne|].
    exact (proj1 (Parallel_distance_sign toLine 2 (0, 5)) Hne).
  - split; [exact Heq|].
    exact (proj2 (Parallel_distance_sign toLine 2 (0, 0)) Heq).
Defined.

(** ** BezierSeed from a point array *)

(** X14. BezierSeed from an array of two, three or four points: the origin
    is the first point and the end is the last point; with three or four
    points the controls are the points between them, in order, and with two
    points controls is undefined. *)
Theorem BezierSeed_points_first_last (points : list IPoint) :
  (2 <= length points <= 4)%nat ->
  paths.seed_type (paths.BezierSeed (paths.SeedOfPoints points)) = pathType.BezierSeed
  /\ paths.seed_origin (paths.BezierSeed (paths.SeedOfPoints points)) = js_index points 0
  /\ paths.seed_end (paths.BezierSeed (paths.SeedOfPoints points))
     = js_index points (length points - 1)
  /\ paths.seed_controls (paths.BezierSeed (paths.SeedOfPoints points))
     = (if Nat.eqb (length points) 2 then None
        else Some (paths.PointArray (removelast (tl points)))).
Proof.
  intros Hlen.
  destruct points as [|p0 [|p1 [|p2 [|p3 [|p4 rest]]]]]; cbn in Hlen; try lia;
    cbn; repeat split.
Qed.

Lemma BezierSeed_points_first_last_witness :
  paths.seed_type (paths.BezierSeed (paths.SeedOfPoints [ (0, 0); (1, 1); (2, 1); (3, 0) ]))
  = pathType.BezierSeed
  /\ paths.seed_origin (paths.BezierSeed (paths.SeedOfPoints [ (0, 0); (1, 1); (2, 1); (3, 0) ]))
     = js_index [ ((0, 0) : IPoint); (1, 1); (2, 1); (3, 0) ] 0
  /\ paths.seed_end (paths.BezierSeed (paths.SeedOfPoints [ (0, 0); (1, 1); (2, 1); (3, 0) ]))
     = js_index [ ((0, 0) : IPoint); (1, 1); (2, 1); (3, 0) ]
                (length [ ((0, 0) : IPoint); (1, 1); (2, 1); (3, 0) ] - 1)
  /\ paths.seed_controls
       (paths.BezierSeed (paths.SeedOfPoints [ (0, 0); (1, 1); (2, 1); (3, 0) ]))
     = (if Nat.eqb (length [ ((0, 0) : IPoint); (1, 1); (2, 1); (3, 0) ]) 2 then None
        else Some (paths.PointArray
                     (removelast (tl [ ((0, 0) : IPoint); (1, 1); (2, 1); (3, 0) ])))).
Proof.
  apply (BezierSeed_points_first_last [ (0, 0); (1, 1); (2, 1); (3, 0) ]).
  cbn. lia.
Defined.

(** ** Order of the arguments *)

(** Two centres that are mirror images in the chord: the sizes of their
    spans differ. *)
Lemma mirror_spans_differ (u : IPoint -> result R) (pointA pointB : IPoint)
      (clockwise : bool) (o0 o1 : IPoint) (span0 span1 : paths.IArcSpan) :
  pointA <> pointB -> o0 <> o1 ->
  measure.pointDistance o0 pointA = measure.pointDistance o0 pointB ->
  measure.pointDistance o1 pointA = measure.pointDistance o1 pointB ->
  measure.pointDistance o0 pointA = measure.pointDistance o1 pointA ->
  paths.arcSpan u (Some o0) pointA pointB clockwise = Ok span0 ->
  paths.arcSpan u (Some o1) pointA pointB clockwise = Ok span1 ->
  paths.span_size span0 <> paths.span_size span1.
Proof.
  intros Hab Ho H0 H1 H01 S0 S1 Heq.
  pose proof (mirror_spans_complementary u pointA pointB clockwise o0 o1 span0 span1
                Hab Ho H0 H1 H01 S0 S1) as Hsum.
  assert (Z0 : paths.span_size span0 = 180) by lra.
  assert (Z1 : paths.span_size span1 = 180) by lra.
  pose proof (span_half_turn u pointA pointB clockwise o0 span0 S0 Z0) as A0.
  pose proof (span_half_turn u pointA pointB clockwise o1 span1 S1 Z1) as A1.
  apply Ho. destruct clockwise.
  - rewrite (half_turn_midpoint o0 pointB pointA) by (assumption || congruence).
    rewrite (half_turn_midpoint o1 pointB pointA) by (assumption || congruence).
    reflexivity.
  - rewrite (half_turn_midpoint o0 pointA pointB) by (assumption || congruence).
    rewrite (half_turn_midpoint o1 pointA pointB) by (assumption || congruence).
    reflexivity.
Qed.

(** X15. The SVG loop over two candidate centres that lie on both circles:
    the sorted list of spans it builds does not depend on the order in
    which the two intersection points are listed. *)
Theorem spansLoop_order_irrelevant (u : IPoint -> result R) (pointA pointB : IPoint)
        (clockwise : bool) (o0 o1 : IPoint) :
  pointA <> pointB -> o0 <> o1 ->
  measure.pointDistance o0 pointA = measure.pointDistance o0 pointB ->
  measure.pointDistance o1 pointA = measure.pointDistance o1 pointB ->
  measure.pointDistance o0 pointA = measure.pointDistance o1 pointA ->
  paths.spansLoop u [o0; o1] pointA pointB clockwise 2 []
  = paths.spansLoop u [o1; o0] pointA pointB clockwise 2 [].
Proof.
  intros Hab Ho H0 H1 H01.
  destruct (paths.arcSpan u (Some o0) pointA pointB clockwise) as [span0|] eqn:S0;
    [|rewrite arcSpan_defined in S0; discriminate].
  destruct (paths.arcSpan u (Some o1) pointA pointB clockwise) as [span1|] eqn:S1;
    [|rewrite arcSpan_defined in S1; discriminate].
  pose proof (mirror_spans_differ u pointA pointB clockwise o0 o1 span0 span1
                Hab Ho H0 H1 H01 S0 S1) as Hne.
  rewrite (spansLoop_two u pointA pointB clockwise o0 o1 span0 span1 S0 S1).
  rewrite (spansLoop_two u pointA pointB clockwise o1 o0 span1 span0 S1 S0).
  destruct (Rgt_dec (paths.span_size span0) (paths.span_size span1)),
           (Rgt_dec (paths.span_size span1) (paths.span_size span0));
    try reflexivity; exfalso; lra.
Qed.

Lemma spansLoop_order_irrelevant_witness :
  paths.spansLoop (fun _ => TypeError) [ (3, 4); (3, -4) ] (0, 0) (6, 0) false 2 []
  = paths.spansLoop (fun _ => TypeError) [ (3, -4); (3, 4) ] (0, 0) (6, 0) false 2 [].
Proof.
  destruct (intersection_two_facts _ _ _ _ _ intersection_radius_5)
    as (Hab & Ho & H0a & H0b & H1a & H1b).
  apply (spansLoop_order_irrelevant (fun _ => TypeError) (0, 0) (6, 0) false (3, 4) (3, -4));
    congruence.
Defined.

(** X16. For three pairwise distinct points, the three-point Circle and the
    three-point Arc raise exactly when the points are collinear; for any
    other three distinct points they return a value. *)
Theorem Circle_3points_raises_iff_collinear
        (u : IPoint -> result R) (pointA pointB pointC : IPoint) :
  pointA <> pointB -> pointB <> pointC -> pointA <> pointC ->
  (paths.Circle (paths.CircleOf3Points pointA pointB pointC) = TypeError
   <-> collinear pointA pointB pointC)
  /\ (paths.Arc u (paths.ArcOf3Points pointA pointB pointC) = TypeError
      <-> collinear pointA pointB pointC).
Proof.
  intros _ _ _.
  assert (Hdec : collinear pointA pointB pointC \/ ~ collinear pointA pointB pointC).
  { unfold collinear. destruct (Req_dec_T (cross3 pointA pointB pointC) 0); auto. }
  destruct Hdec as [Hc|Hnc].
  - assert (H : paths.Circle (paths.CircleOf3Points pointA pointB pointC) = TypeError).
    { apply Circle_3points_undefined, fromSlopeIntersection_perpendiculars_collinear, Hc. }
    split; split; intros _; try exact Hc; try exact H.
    unfold paths.Arc. rewrite H. reflexivity.
  - destruct (fromSlopeIntersection_perpendiculars pointA pointB pointC Hnc)
      as (o & Ho & _).
    pose proof (Circle_3points_defined _ _ _ _ Ho) as H.
    split; split; intros H'; try contradiction.
    + rewrite H in H'. discriminate.
    + unfold paths.Arc in H'. rewrite H in H'. cbn [bind] in H'.
      destruct (negb _) in H'; discriminate.
Qed.

Lemma Circle_3points_raises_iff_collinear_witness :
  (paths.Circle (paths.CircleOf3Points (0, 0) (1, 1) (2, 2)) = TypeError
   <-> collinear (0, 0) (1, 1) (2, 2))
  /\ (paths.Arc (fun _ => TypeError) (paths.ArcOf3Points (0, 0) (1, 1) (2, 2)) = TypeError
      <-> collinear (0, 0) (1, 1) (2, 2)).
Proof.
  exact (Circle_3points_raises_iff_collinear (fun _ => TypeError) (0, 0) (1, 1) (2, 2)
           (proj1 collinear_example_distinct)
           (proj1 (proj2 collinear_example_distinct))
           (proj2 (proj2 collinear_example_distinct))).
Defined.

(** X17. The two-point Circle does not depend on the order of the two
    points, and the two-point Arc taken clockwise from A to B is the arc
    taken counter-clockwise (flag false or absent) from B to A. *)
Theorem Arc_2points_clockwise_is_reversal (u : IPoint -> result R) (pointA pointB : IPoint) :
  paths.Circle (paths.CircleOf2Points pointA pointB)
  = paths.Circle (paths.CircleOf2Points pointB pointA)
  /\ paths.Arc u (paths.ArcOf2Points pointA pointB (Some true))
     = paths.Arc u (paths.ArcOf2Points pointB pointA (Some false))
  /\ paths.Arc u (paths.ArcOf2Points pointA pointB (Some true))
     = paths.Arc u (paths.ArcOf2Points pointB pointA None).
Proof.
  assert (Ho : point.average pointA pointB = point.average pointB pointA).
  { unfold point.average. f_equal; field. }
  assert (Hr : measure.pointDistance (point.average pointA pointB) pointA
               = measure.pointDistance (point.average pointB pointA) pointB).
  { apply pointDistance_eq_of_sqr. unfold point.average. cbn [fst snd]. field. }
  split; [|split].
  - unfold paths.Circle. rewrite Hr, Ho. reflexivity.
  - rewrite !Arc_2points_defined. cbn [paths.truthy]. rewrite Hr, Ho. reflexivity.
  - rewrite !Arc_2points_defined. cbn [paths.truthy]. rewrite Hr, Ho. reflexivity.
Qed.
